(** * Listchecker: reference sets and row classification of [app.py]

    A shallow embedding of [normalize_text], [load_database_set], the
    start-up code and the classification loop of [upload_file].

    Modelling choices.
    - Text is a [string] whose characters are the code points 0-255
      (Latin-1). On these [str.lower] folds [A]-[Z] and the capitals
      192-222 except 215, and [str.strip] removes the white space Python
      knows there (codes 9-13, 28-32, 133 and 160).
    - A cell of a table is [None], a missing value (float [nan], [NaT],
      [pd.NA]), a [str] or an [int]; other floats, booleans and dates are
      outside the model.
    - A row of a [DataFrame] is the list of its cells, in column order, as
      [df.iterrows()] hands them to the loop body; [row[label]] is a
      scalar when the label occurs once and a [Series] when it occurs
      several times.
    - Python sets of keys are [gset string].
    - The functions that can raise live in a small error monad; the loader,
      which mutates its two sets while a file may abort half way, threads
      the sets through a state-and-error monad. *)

From Stdlib Require Import Ascii String ZArith Lia.
From stdpp Require Import base decidable option list strings pretty gmap.

(** ** Python text primitives *)

Definition is_upper (a : ascii) : bool :=
  let n := N_of_ascii a in
  (((65 <=? n) && (n <=? 90)) ||
   ((192 <=? n) && (n <=? 222) && negb (n =? 215)))%N.

Definition lower_char (a : ascii) : ascii :=
  if is_upper a then ascii_of_N (N_of_ascii a + 32) else a.

(** [str.lower()] *)
Fixpoint lower (s : string) : string :=
  match s with
  | EmptyString => EmptyString
  | String a s' => String (lower_char a) (lower s')
  end.

(** [str.isspace()] on one character *)
Definition py_isspace (a : ascii) : bool :=
  let n := N_of_ascii a in
  (((9 <=? n) && (n <=? 13)) || ((28 <=? n) && (n <=? 32)) ||
   (n =? 133) || (n =? 160))%N.

Fixpoint lstrip (s : string) : string :=
  match s with
  | EmptyString => EmptyString
  | String a s' => if py_isspace a then lstrip s' else s
  end.

Definition is_empty (s : string) : bool :=
  match s with EmptyString => true | _ => false end.

Fixpoint rstrip (s : string) : string :=
  match s with
  | EmptyString => EmptyString
  | String a s' =>
      let r := rstrip s' in
      if py_isspace a && is_empty r then EmptyString else String a r
  end.

(** A string that does not begin with white space. *)
Definition no_lead_space (s : string) : Prop :=
  match s with
  | EmptyString => True
  | String a _ => py_isspace a = false
  end.

(** [str.strip()] *)
Definition strip (s : string) : string := rstrip (lstrip s).

(** [s.endswith(suffix)] *)
Definition endswith (s suffix : string) : bool :=
  let n := String.length s in
  let k := String.length suffix in
  if (k <=? n)%nat then String.eqb (String.substring (n - k) k s) suffix
  else false.

(** [x in lst] for a list of strings *)
Definition str_in (x : string) (l : list string) : bool :=
  existsb (String.eqb x) l.

(** ** Values *)

Inductive cell : Type :=
  | CNone
  | CNaN
  | CStr (s : string)
  | CInt (z : Z).

Global Instance cell_eq_dec : EqDecision cell.
Proof. solve_decision. Defined.

(** [str(x)] *)
Definition py_str (c : cell) : string :=
  match c with
  | CNone => "None"
  | CNaN => "nan"
  | CStr s => s
  | CInt z => pretty z
  end.

(** [pd.isna(x)] on a scalar *)
Definition isna (c : cell) : bool :=
  match c with CNone | CNaN => true | _ => false end.

Definition is_None (c : cell) : bool :=
  match c with CNone => true | _ => false end.

(** Python truth value of a scalar ([nan] is a non-zero float). *)
Definition truthy (c : cell) : bool :=
  match c with
  | CNone => false
  | CNaN => true
  | CStr s => negb (is_empty s)
  | CInt z => negb (z =? 0)%Z
  end.

(** What [row[label]] evaluates to. *)
Inductive pyval : Type :=
  | Scalar (c : cell)
  | Series (cs : list cell).

Inductive exn : Type := KeyError | ValueError.

Inductive res (A : Type) : Type :=
  | Ok (a : A)
  | Raise (e : exn).
Arguments Ok {A} a.
Arguments Raise {A} e.

Global Instance res_ret : MRet res := λ A a, Ok a.
Global Instance res_bind : MBind res := λ A B f m,
  match m with Ok a => f a | Raise e => Raise e end.

(** ** [normalize_text] *)

(** The body of [normalize_text] once its argument is a scalar. *)
Definition normalize_scalar (text : cell) : string :=
  if isna text || is_None text || String.eqb (lower (py_str text)) "nan"
  then ""
  else strip (lower (py_str text)).

(** On a [Series] the test [pd.isna(text) or ...] asks for the truth value
    of a Series, which pandas refuses with a [ValueError]. *)
Definition normalize_text (text : pyval) : res string :=
  match text with
  | Series _ => Raise ValueError
  | Scalar c => Ok (normalize_scalar c)
  end.

(** ** Tables *)

(** [columns] are the labels; [rows] are the rows as [df.iterrows()] yields
    them. *)
Record dataframe : Type := DataFrame {
  columns : list cell;
  rows : list (list cell)
}.

(** The cells of [row] under the label [l]; a row shorter than the header
    reads as missing values. *)
Fixpoint cells_at {L : Type} `{EqDecision L}
    (labels : list L) (row : list cell) (l : L) : list cell :=
  match labels with
  | [] => []
  | h :: t =>
      let rest := cells_at t (tail row) l in
      if decide (h = l) then hd CNaN row :: rest else rest
  end.

(** [row[l]] *)
Definition row_get {L : Type} `{EqDecision L}
    (labels : list L) (row : list cell) (l : L) : res pyval :=
  match cells_at labels row l with
  | [] => Raise KeyError
  | [c] => Ok (Scalar c)
  | cs => Ok (Series cs)
  end.

(** [str(c).lower().strip()] *)
Definition norm_header (c : cell) : string := strip (lower (py_str c)).

(** ** Reference set builder: [load_database_set] *)

Definition DATABASE_FOLDER : string := "database_files".
Definition IMNEO_FILES : list string := ["imneo.csv"; "imneo1.xlsx"; "imneo2.xlsx"].
Definition XCLIENT_FILES : list string := ["xclient1.csv"; "xclient2.csv"].

(** What each pandas reader makes of a file that exists; [None] stands for
    the reader raising. *)
Record file_content : Type := FileContent {
  csv_utf8 : option dataframe;
  csv_latin1 : option dataframe;
  excel : option dataframe
}.

(** The part of the file system the program looks at: whether
    [DATABASE_FOLDER] exists, and the files in it by name. *)
Record filesystem : Type := FileSystem {
  folder_exists : bool;
  files : gmap string file_content
}.

(** Lines 49-55: the reader chosen by the extension, with the Latin-1
    retry for CSV. *)
Definition read_table (filename : string) (fc : file_content) : option dataframe :=
  if endswith filename ".csv" then
    match csv_utf8 fc with
    | Some df => Some df
    | None => csv_latin1 fc
    end
  else excel fc.

(** The two sets under construction: [(names_set, companies_set)]. *)
Definition sets : Type := gset string * gset string.

(** State (the two sets, mutated in place) and exceptions: an exception
    keeps the additions made before it. *)
Definition loader (A : Type) : Type := sets → sets * res A.

Global Instance loader_ret : MRet loader := λ A a st, (st, Ok a).
Global Instance loader_bind : MBind loader := λ A B f m st,
  match m st with
  | (st', Ok a) => f a st'
  | (st', Raise e) => (st', Raise e)
  end.

Definition lift {A : Type} (r : res A) : loader A := λ st, (st, r).
Definition add_name (k : string) : loader unit :=
  λ st, (({[ k ]} ∪ st.1, st.2), Ok tt).
Definition add_company (k : string) : loader unit :=
  λ st, ((st.1, {[ k ]} ∪ st.2), Ok tt).

(** Lines 63-65 *)
Definition get_first (cols : list string) (row : list cell) : res pyval :=
  if str_in "first name" cols then row_get cols row "first name"
  else if str_in "voor naam" cols then row_get cols row "voor naam"
  else if str_in "naam" cols then row_get cols row "naam"
  else Ok (Scalar (CStr "")).

(** Lines 67-68 *)
Definition get_last (cols : list string) (row : list cell) : res pyval :=
  if str_in "last name" cols then row_get cols row "last name"
  else if str_in "achternaam" cols then row_get cols row "achternaam"
  else Ok (Scalar (CStr "")).

(** Lines 70-75 *)
Definition get_company (cols : list string) (row : list cell) : res pyval :=
  if str_in "company name" cols then row_get cols row "company name"
  else if str_in "company" cols then row_get cols row "company"
  else if str_in "huidig bedrijf" cols then row_get cols row "huidig bedrijf"
  else if str_in "currrent company" cols then row_get cols row "currrent company"
  else if str_in "current company" cols then row_get cols row "current company"
  else if str_in "company table data" cols then row_get cols row "company table data"
  else Ok (Scalar (CStr "")).

(** [f"{a} {b}".strip()] *)
Definition join_name (a b : string) : string := strip (a +:+ " " +:+ b).

(** Lines 60-81: the body of the loop over the rows of one file. *)
Definition load_row (cols : list string) (row : list cell) : loader unit :=
  first ← lift (get_first cols row);
  last ← lift (get_last cols row);
  company ← lift (get_company cols row);
  nf ← lift (normalize_text first);
  nl ← lift (normalize_text last);
  let full_name := join_name nf nl in
  _ ← (if is_empty full_name then mret tt else add_name full_name);
  norm_company ← lift (normalize_text company);
  if is_empty norm_company then mret tt else add_company norm_company.

(** [for _, row in df.iterrows(): body] *)
Fixpoint iterrows (body : list cell → loader unit) (rs : list (list cell))
    : loader unit :=
  match rs with
  | [] => mret tt
  | r :: rs' => _ ← body r; iterrows body rs'
  end.

(** Lines 43-84: one file of the group. A missing file is skipped, a
    reader that raises or a row that raises ends the file; what was added
    before stays. *)
Definition load_file (fs : filesystem) (filename : string) (st : sets) : sets :=
  match files fs !! filename with
  | None => st
  | Some fc =>
      match read_table filename fc with
      | None => st
      | Some df =>
          (iterrows (load_row (map norm_header (columns df))) (rows df) st).1
      end
  end.

Definition load_database_set (fs : filesystem) (filenames : list string) : sets :=
  if negb (folder_exists fs) then (∅, ∅)
  else fold_left (λ st filename, load_file fs filename st) filenames (∅, ∅).

(** The invariant of the loader: the empty key is in neither set. *)
Definition keys_ok (st : sets) : Prop :=
  ("" ∉ fst st) ∧ ("" ∉ snd st).

(** The loader only adds: both sets grow. *)
Definition sets_le (st st' : sets) : Prop :=
  fst st ⊆ fst st' ∧ snd st ⊆ snd st'.

(** A set after [if k: s.add(k)]. *)
Definition add_key (k : string) (s : gset string) : gset string :=
  if is_empty k then s else {[ k ]} ∪ s.

(** ** Start-up *)

Record refs : Type := Refs {
  imneo_names : gset string;
  imneo_companies : gset string;
  xclient_names : gset string;
  xclient_companies : gset string
}.

(** Lines 90-97; [render] is [os.environ.get('RENDER')]. *)
Definition startup (render : option string) (fs : filesystem) : refs :=
  if bool_decide (render = None) || folder_exists fs then
    let i := load_database_set fs IMNEO_FILES in
    let x := load_database_set fs XCLIENT_FILES in
    Refs i.1 i.2 x.1 x.2
  else Refs ∅ ∅ ∅ ∅.

(** ** Row classifier: [upload_file] *)

(** [next((c for c in cols if p c), None)] *)
Definition next_col (p : cell → bool) (cols : list cell) : option cell :=
  find p cols.

(** Line 123 *)
Definition first_name_col (df : dataframe) : option cell :=
  next_col (λ c, str_in (norm_header c) ["first name"; "voor naam"; "naam"])
           (columns df).

(** Line 124 *)
Definition last_name_col (df : dataframe) : option cell :=
  next_col (λ c, str_in (norm_header c) ["last name"; "achternaam"])
           (columns df).

Definition possible_company_headers : list string :=
  ["company table data"; "company name"; "huidig bedrijf"; "company"; "name"].

(** Lines 128-132: the loop over the headers, left at the first header
    that some column carries. *)
Fixpoint company_col_loop (headers : list string) (cols : list cell)
    : option cell :=
  match headers with
  | [] => None
  | header :: rest =>
      match next_col (λ c, String.eqb (norm_header c) header) cols with
      | Some m => if truthy m then Some m else company_col_loop rest cols
      | None => company_col_loop rest cols
      end
  end.

Definition company_col (df : dataframe) : option cell :=
  company_col_loop possible_company_headers (columns df).

(** Truth value of a column variable that may still be [None]. *)
Definition col_truthy (c : option cell) : bool :=
  match c with Some l => truthy l | None => false end.

(** Lines 138-140 *)
Definition user_name_of (df : dataframe) (row : list cell) : res string :=
  match first_name_col df, last_name_col df with
  | Some fc, Some lc =>
      if truthy fc && truthy lc then
        first ← row_get (columns df) row fc;
        nf ← normalize_text first;
        last ← row_get (columns df) row lc;
        nl ← normalize_text last;
        mret (join_name nf nl)
      else mret ""
  | _, _ => mret ""
  end.

(** Line 142 *)
Definition user_company_of (df : dataframe) (row : list cell) : res string :=
  match company_col df with
  | Some cc =>
      if truthy cc then
        company ← row_get (columns df) row cc;
        normalize_text company
      else mret ""
  | None => mret ""
  end.

(** [k and k in s] as a truth value *)
Definition key_in (k : string) (s : gset string) : bool :=
  negb (is_empty k) && bool_decide (k ∈ s).

(** Lines 144-159: status and colour from the two keys. *)
Definition classify (db : refs) (mode : option string)
    (user_name user_company : string) : string * string :=
  let is_imneo :=
    key_in user_name (imneo_names db) || key_in user_company (imneo_companies db) in
  let is_xclient :=
    key_in user_name (xclient_names db) || key_in user_company (xclient_companies db) in
  if is_imneo then ("IMNEO Match (Restricted)", "FF0000")
  else if is_xclient then
    if bool_decide (mode = Some "candidate")
    then ("X-Client Match (Candidate Mode)", "FF0000")
    else ("X-Client Match (Client/Relation)", "FFFF00")
  else ("Safe", "FFFFFF").

(** Lines 138-159: the body of the loop over the uploaded rows. *)
Definition classify_row (db : refs) (mode : option string) (df : dataframe)
    (row : list cell) : res (string * string) :=
  user_name ← user_name_of df row;
  user_company ← user_company_of df row;
  mret (classify db mode user_name user_company).

(** Lines 134-162: [results] and [colors] grow by one entry per row. *)
Fixpoint classify_loop (db : refs) (mode : option string) (df : dataframe)
    (rs : list (list cell)) (results colors : list string)
    : res (list string * list string) :=
  match rs with
  | [] => mret (results, colors)
  | row :: rs' =>
      sc ← classify_row db mode df row;
      classify_loop db mode df rs' (results ++ [sc.1]) (colors ++ [sc.2])
  end.

Definition classify_table (db : refs) (mode : option string) (df : dataframe)
    : res (list string * list string) :=
  classify_loop db mode df (rows df) [] [].

(** The uploaded file as the request carries it: its name and what each
    reader makes of it. *)
Record upload : Type := Upload {
  filename : string;
  content : file_content
}.

Record request : Type := Request {
  req_file : option upload;
  req_mode : option string
}.

Inductive response : Type :=
  | BadRequest (msg : string)
  | ReadError
  | Unhandled (e : exn)
  | Checked (df : dataframe) (results colors : list string).

(** Lines 105-164, up to the workbook writer: [Checked df results colors]
    is the sheet that gets written, [results] its [Check Result] column and
    [colors] the fill of each data row. *)
Definition upload_file (db : refs) (req : request) : response :=
  match req_file req with
  | None => BadRequest "No file uploaded"
  | Some file =>
      if is_empty (filename file) then BadRequest "No file selected"
      else
        match read_table (filename file) (content file) with
        | None => ReadError
        | Some df =>
            match classify_table db (req_mode req) df with
            | Raise e => Unhandled e
            | Ok rc => Checked df rc.1 rc.2
            end
        end
  end.

(** ** The workbook: lines 164-174 of [upload_file] *)

Definition check_label : cell := CStr "Check Result".

(** [df.columns] once [df['Check Result'] = results] has run: a column of
    that label is overwritten where it stands, otherwise the column is
    appended. *)
Definition out_columns (df : dataframe) : list cell :=
  if bool_decide (check_label ∈ columns df) then columns df
  else columns df ++ [check_label].

(** The fills of a worksheet, by (row, column), both counted from 1. *)
Abbreviation worksheet := (gmap (nat * nat) string).

(** [for col in range(1, ncols + 1): worksheet.cell(row=r, column=col).fill = fill] *)
Definition fill_row (r ncols : nat) (color : string) (ws : worksheet) : worksheet :=
  fold_left (λ ws col, <[ (r, col) := color ]> ws) (seq 1 ncols) ws.

(** [for i, color in enumerate(colors)], from index [i] on. *)
Fixpoint paint_from (i : nat) (colors : list string) (ncols : nat)
    (ws : worksheet) : worksheet :=
  match colors with
  | [] => ws
  | color :: rest =>
      paint_from (S i) rest ncols
        (if String.eqb color "FFFFFF" then ws
         else fill_row (i + 2) ncols color ws)
  end.

(** The fills of the sheet written for [df] and [colors]. *)
Definition sheet_fills (df : dataframe) (colors : list string) : worksheet :=
  paint_from 0 colors (length (out_columns df)) ∅.

(** ** The specification's reading of two steps, for comparison *)

(** The header vocabulary of the reference set builder, in the order the
    specification lists it. *)
Definition first_name_fields : list string := ["first name"; "voor naam"; "naam"].
Definition last_name_fields : list string := ["last name"; "achternaam"].
Definition company_fields : list string :=
  ["company name"; "company"; "huidig bedrijf"; "currrent company";
   "current company"; "company table data"].

(** Column detection by alias priority, as the specification words it for
    the name columns: the first alias, in the order of the list, that some
    column carries decides. *)
Fixpoint priority_col (aliases : list string) (cols : list cell) : option cell :=
  match aliases with
  | [] => None
  | a :: rest =>
      match next_col (λ c, String.eqb (norm_header c) a) cols with
      | Some c => Some c
      | None => priority_col rest cols
      end
  end.

(** The name key with each component degrading to empty on its own, as the
    specification words it. *)
Definition component (df : dataframe) (row : list cell) (col : option cell)
    : res string :=
  match col with
  | Some c => v ← row_get (columns df) row c; normalize_text v
  | None => mret ""
  end.

Definition independent_user_name (df : dataframe) (row : list cell) : res string :=
  nf ← component df row (first_name_col df);
  nl ← component df row (last_name_col df);
  mret (join_name nf nl).

(** ** Notions used to describe the keys and the sets *)

(** A text made of white space only (the empty text included). *)
Definition blank (s : string) : bool := is_empty (lstrip s).

(** A key in normal form: lowercase, and trimmed at both ends. *)
Definition normal_key (k : string) : Prop := lower k = k ∧ strip k = k.

(** Both sets hold keys in normal form only. *)
Definition sets_normal (st : sets) : Prop :=
  ∀ k, k ∈ fst st ∨ k ∈ snd st → normal_key k.

(** Componentwise union of two pairs of sets. *)
Definition sets_union (a b : sets) : sets := (fst a ∪ fst b, snd a ∪ snd b).

(** What one file adds when the sets start empty. *)
Definition contribution (fs : filesystem) (filename : string) : sets :=
  load_file fs filename (∅, ∅).

(** [a] is the only text of [fields] among the headers [cols]. *)
Definition sole_field (fields cols : list string) (a : string) : Prop :=
  a ∈ fields ∧ a ∈ cols ∧ ∀ a', a' ∈ fields → a' ∈ cols → a' = a.

(** How many columns carry the label [l]. *)
Definition occurrences {L : Type} `{EqDecision L} (l : L) (labels : list L) : nat :=
  length (filter (λ x, x = l) labels).

(** [a] is the field an [if]/[elif] chain over [fields] reads: the first of
    [fields] that is a header. *)
Definition picked (fields cols : list string) (a : string) : Prop :=
  ∃ pre post, fields = pre ++ a :: post ∧ (∀ b, b ∈ pre → b ∉ cols) ∧ a ∈ cols.

(** ** Sample data *)

(** The reference sets of the specification's scenarios, with [jane doe]
    also among the X-CLIENT names. *)
Definition sample_refs : refs :=
  Refs {[ "jane doe" ]} ∅ {[ "jane doe" ]} {[ "acme corp" ]}.

Definition sample_row_jane : list cell := [CStr "Jane"; CStr "Doe"; CStr ""].
Definition sample_row_acme : list cell := [CStr ""; CStr ""; CStr "Acme Corp"].
Definition sample_row_bob : list cell := [CStr "Bob"; CStr "Jones"; CStr "Other Inc"].

Definition sample_table : dataframe :=
  DataFrame [CStr "First Name"; CStr "Last Name"; CStr "Company"]
            [sample_row_jane; sample_row_acme; sample_row_bob].

(** A table with a first-name column and no last-name column. *)
Definition first_only_table : dataframe :=
  DataFrame [CStr "First Name"] [[CStr "Jane"]].

(** A table that carries two first-name aliases, the later alias first. *)
Definition two_alias_table : dataframe :=
  DataFrame [CStr "naam"; CStr "first name"; CStr "last name"]
            [[CStr "x"; CStr "Jane"; CStr "Doe"]].

(** A reference folder with one IMNEO file: a row with a first name only,
    then a row without any name. *)
Definition sample_reference : dataframe :=
  DataFrame [CStr "First Name"; CStr "Company"]
            [[CStr " Jane "; CStr "Acme Corp"]; [CNaN; CStr "Other Inc"]].

Definition sample_fs : filesystem :=
  FileSystem true {[ "imneo.csv" := FileContent (Some sample_reference) None None ]}.

Definition absent_fs : filesystem := FileSystem false ∅.

(** A reference table whose first two headers both read [first name] once
    lowercased and trimmed. *)
Definition twice_first_table : dataframe :=
  DataFrame [CStr "First Name"; CStr "first name "; CStr "Company"]
            [[CStr "Jane"; CStr "Doe"; CStr "Acme Corp"]].

(** A reference table whose last two headers both read [company]. *)
Definition twice_company_table : dataframe :=
  DataFrame [CStr "First Name"; CStr "Company"; CStr "company "]
            [[CStr "Jane"; CStr "Acme"; CStr "Acme Corp"];
             [CStr "Bob"; CStr "Other"; CStr "Other Inc"]].

(** A file system holding these two tables as IMNEO files. *)
Definition twice_fs : filesystem :=
  FileSystem true
    (<[ "imneo.csv" := FileContent (Some twice_first_table) None None ]>
       {[ "imneo1.xlsx" := FileContent None None (Some twice_company_table) ]}).

(** A reference folder whose IMNEO file is the sample table itself. *)
Definition listed_fs : filesystem :=
  FileSystem true {[ "imneo.csv" := FileContent (Some sample_table) None None ]}.



(** * Text lemmas *)

Section text.

Lemma lower_char_idem a : lower_char (lower_char a) = lower_char a.
Proof. by destruct a as [[] [] [] [] [] [] [] []]. Qed.

Lemma py_isspace_lower a : py_isspace (lower_char a) = py_isspace a.
Proof. by destruct a as [[] [] [] [] [] [] [] []]. Qed.

Lemma lower_idem s : lower (lower s) = lower s.
Proof. induction s as [|a s IH]; simpl; [done|]. by rewrite lower_char_idem, IH. Qed.

Lemma is_empty_lower s : is_empty (lower s) = is_empty s.
Proof. by destruct s. Qed.

Lemma is_empty_true s : is_empty s = true ↔ s = "".
Proof. by destruct s. Qed.

Lemma is_empty_false s : is_empty s = false ↔ s ≠ "".
Proof. by destruct s. Qed.

Lemma lstrip_lower s : lstrip (lower s) = lower (lstrip s).
Proof.
  induction s as [|a s IH]; simpl; [done|].
  rewrite py_isspace_lower. by destruct (py_isspace a).
Qed.

Lemma rstrip_lower s : rstrip (lower s) = lower (rstrip s).
Proof.
  induction s as [|a s IH]; simpl; [done|].
  rewrite py_isspace_lower, IH, is_empty_lower.
  by destruct (py_isspace a), (is_empty (rstrip s)).
Qed.

Lemma strip_lower s : strip (lower s) = lower (strip s).
Proof. unfold strip. by rewrite lstrip_lower, rstrip_lower. Qed.

Lemma lstrip_no_lead s : no_lead_space (lstrip s).
Proof.
  induction s as [|a s IH]; simpl; [done|].
  destruct (py_isspace a) eqn:E; [done|]. exact E.
Qed.

Lemma lstrip_id s : no_lead_space s → lstrip s = s.
Proof. destruct s as [|a s]; simpl; [done|]. by intros ->. Qed.

Lemma rstrip_no_lead s : no_lead_space s → no_lead_space (rstrip s).
Proof. destruct s as [|a s]; simpl; [done|]. intros E. by rewrite E. Qed.

Lemma rstrip_idem s : rstrip (rstrip s) = rstrip s.
Proof.
  induction s as [|a s IH]; simpl; [done|].
  destruct (py_isspace a && is_empty (rstrip s)) eqn:E; simpl; [done|].
  by rewrite IH, E.
Qed.

Lemma strip_no_lead s : no_lead_space (strip s).
Proof. apply rstrip_no_lead, lstrip_no_lead. Qed.

Lemma strip_idem s : strip (strip s) = strip s.
Proof.
  unfold strip at 1. rewrite (lstrip_id (strip s)) by apply strip_no_lead.
  unfold strip. apply rstrip_idem.
Qed.

Lemma rstrip_strip s : rstrip (strip s) = strip s.
Proof. unfold strip. apply rstrip_idem. Qed.

Lemma rstrip_app_space s : rstrip (s +:+ " ") = rstrip s.
Proof. induction s as [|a s IH]; simpl; [done|]. by rewrite IH. Qed.

Lemma lstrip_app_space s : s ≠ "" → no_lead_space s → lstrip (s +:+ " ") = s +:+ " ".
Proof. destruct s as [|a s]; simpl; [done|]. by intros _ ->. Qed.

(** [f"{n} ".strip()] gives back a stripped [n]. *)
Lemma join_name_right_empty s : join_name (strip s) "" = strip s.
Proof.
  unfold join_name. change (" " +:+ "") with " ".
  destruct (decide (strip s = "")) as [->|Hne]; [done|].
  unfold strip at 1.
  rewrite lstrip_app_space by (done || apply strip_no_lead).
  by rewrite rstrip_app_space, rstrip_strip.
Qed.

(** [f" {n}".strip()] is [n.strip()]. *)
Lemma join_name_left_empty s : join_name "" s = strip s.
Proof. done. Qed.

End text.

(** * [normalize_text] *)

Section normalize.

Lemma normalize_scalar_cases c :
  normalize_scalar c = "" ∨
  (normalize_scalar c = strip (lower (py_str c)) ∧ lower (py_str c) ≠ "nan").
Proof.
  unfold normalize_scalar.
  destruct (isna c || is_None c); simpl; [by left|].
  destruct (String.eqb_spec (lower (py_str c)) "nan"); [by left | by right].
Qed.

Lemma normalize_scalar_stripped c : strip (normalize_scalar c) = normalize_scalar c.
Proof. destruct (normalize_scalar_cases c) as [->|[-> _]]; [done | apply strip_idem]. Qed.

Lemma normalize_scalar_lower c : lower (normalize_scalar c) = normalize_scalar c.
Proof.
  destruct (normalize_scalar_cases c) as [->|[-> _]]; [done|].
  by rewrite <- strip_lower, lower_idem.
Qed.

(** A second pass changes a key only if the key is the text [nan]. *)
Lemma normalize_scalar_again c :
  normalize_scalar c ≠ "nan" →
  normalize_scalar (CStr (normalize_scalar c)) = normalize_scalar c.
Proof.
  intros Hnan. unfold normalize_scalar at 1. simpl.
  rewrite normalize_scalar_lower, normalize_scalar_stripped.
  by destruct (String.eqb_spec (normalize_scalar c) "nan").
Qed.

Lemma normalize_text_ok x y :
  normalize_text x = Ok y → ∃ c, x = Scalar c ∧ y = normalize_scalar c.
Proof. destruct x as [c|cs]; simpl; [|done]. intros [= <-]. eauto. Qed.

(** C4, the claim as it stands fails: the text [" nan "] normalizes to the
    key [nan], which a second pass turns into the empty key. *)
Lemma normalize_not_idempotent :
  normalize_text (Scalar (CStr " nan ")) = Ok "nan" ∧
  normalize_text (Scalar (CStr "nan")) = Ok "" ∧
  ¬ (∀ x y, normalize_text x = Ok y → normalize_text (Scalar (CStr y)) = Ok y).
Proof.
  split; [done|]. split; [done|].
  intros H. by specialize (H (Scalar (CStr " nan ")) "nan" eq_refl).
Qed.

(** C4, amended: [normalize_text] is idempotent on every input whose
    normalized text is not the literal [nan]; and [None], the text [NaN]
    and the empty text all normalize to the empty string. *)
Theorem normalize_idempotent_unless_nan :
  (∀ x y, normalize_text x = Ok y → y ≠ "nan" →
          normalize_text (Scalar (CStr y)) = Ok y) ∧
  normalize_text (Scalar CNone) = Ok "" ∧
  normalize_text (Scalar (CStr "NaN")) = Ok "" ∧
  normalize_text (Scalar (CStr "")) = Ok "".
Proof.
  split; [|done].
  intros x y Hx Hy. apply normalize_text_ok in Hx as (c & -> & ->).
  simpl. by rewrite normalize_scalar_again.
Qed.

Lemma normalize_idempotent_unless_nan_witness :
  normalize_text (Scalar (CStr "  John SMITH ")) = Ok "john smith" ∧
  normalize_text (Scalar (CStr "john smith")) = Ok "john smith".
Proof.
  split; [reflexivity|].
  apply (proj1 normalize_idempotent_unless_nan (Scalar (CStr "  John SMITH "))).
  - reflexivity.
  - discriminate.
Defined.

End normalize.

(** * Rows and labels *)

Section rows.
Context {L : Type} `{EqDecision L}.
Implicit Types (labels : list L) (row : list cell) (l : L).

Lemma cells_at_absent labels row l : l ∉ labels → cells_at labels row l = [].
Proof.
  revert row. induction labels as [|h t IH]; intros row Hl; simpl; [done|].
  apply not_elem_of_cons in Hl as [Hne Ht].
  destruct (decide (h = l)); [congruence|]. by apply IH.
Qed.

(** Under a label that occurs once, [row[l]] is the cell in its column. *)
Lemma row_get_lookup labels row l i v :
  NoDup labels → labels !! i = Some l → row !! i = Some v →
  row_get labels row l = Ok (Scalar v).
Proof.
  unfold row_get. revert row i.
  induction labels as [|h t IH]; intros row i Hnd Hl Hv; [done|].
  apply NoDup_cons in Hnd as [Hh Ht]. simpl.
  destruct i as [|i]; simpl in *.
  - simplify_eq. destruct row as [|v' row]; simplify_eq/=.
    rewrite decide_True by done. by rewrite cells_at_absent.
  - destruct row as [|v' row]; [done|]. simpl in *.
    rewrite decide_False; [by eapply IH|].
    intros ->. apply Hh. by eapply list_elem_of_lookup_2.
Qed.

(** Under a label that occurs once, [row[l]] is a scalar whatever the row. *)
Lemma row_get_scalar labels row l :
  NoDup labels → l ∈ labels → ∃ v, row_get labels row l = Ok (Scalar v).
Proof.
  unfold row_get. revert row.
  induction labels as [|h t IH]; intros row Hnd Hl; [by apply elem_of_nil in Hl|].
  apply NoDup_cons in Hnd as [Hh Ht]. simpl.
  destruct (decide (h = l)) as [->|Hne].
  - rewrite cells_at_absent by done. eauto.
  - apply elem_of_cons in Hl as [->|Hl]; [done|]. by apply IH.
Qed.

End rows.

Section find.
Context {A : Type}.
Implicit Types (p : A → bool) (l : list A).

Lemma find_elem p l x : find p l = Some x → x ∈ l ∧ p x = true.
Proof.
  induction l as [|h t IH]; simpl; [done|].
  destruct (p h) eqn:E.
  - intros [= <-]. split; [left | done].
  - intros Hf. destruct (IH Hf). split; [by right | done].
Qed.

(** [find] stops at the first element that passes. *)
Lemma find_first p pre x post :
  (∀ y, y ∈ pre → p y = false) → p x = true →
  find p (pre ++ x :: post) = Some x.
Proof.
  induction pre as [|h t IH]; simpl; intros Hpre Hx.
  - by rewrite Hx.
  - rewrite (Hpre h) by left. apply IH; [|done].
    intros y Hy. apply Hpre. by right.
Qed.

Lemma find_none p l : (∀ y, y ∈ l → p y = false) → find p l = None.
Proof.
  induction l as [|h t IH]; simpl; intros Hl; [done|].
  rewrite (Hl h) by left. apply IH. intros y Hy. apply Hl. by right.
Qed.

End find.

Lemma str_in_elem x l : str_in x l = true ↔ x ∈ l.
Proof.
  unfold str_in. rewrite existsb_exists. split.
  - intros (y & Hy & E). apply String.eqb_eq in E as ->. by apply list_elem_of_In.
  - intros Hx. exists x. split; [by apply list_elem_of_In | apply String.eqb_refl].
Qed.

Lemma str_in_not_elem x l : str_in x l = false ↔ x ∉ l.
Proof. rewrite <- str_in_elem. by destruct (str_in x l). Qed.

(** * Column detection and key derivation in [upload_file] *)

Section detection.
Implicit Types (df : dataframe) (row : list cell) (c : cell).

(** A label with a false truth value reads as one of three texts, none of
    them a known header: the [if] tests on the detected columns never
    discard a detected column. *)
Lemma falsy_header c :
  truthy c = false →
  norm_header c = "none" ∨ norm_header c = "" ∨ norm_header c = "0".
Proof.
  destruct c as [| |s|z]; simpl; intros Hc; [by left|done| |].
  - apply negb_false_iff, is_empty_true in Hc as ->. right. by left.
  - apply negb_false_iff, Z.eqb_eq in Hc as ->. right. by right.
Qed.

Lemma header_truthy c (aliases : list string) :
  str_in "none" aliases = false → str_in "" aliases = false →
  str_in "0" aliases = false →
  str_in (norm_header c) aliases = true → truthy c = true.
Proof.
  intros H1 H2 H3 Hc. destruct (truthy c) eqn:E; [done|].
  destruct (falsy_header c E) as [Hn|[Hn|Hn]]; rewrite Hn in Hc; congruence.
Qed.

Lemma first_name_col_truthy df c : first_name_col df = Some c → truthy c = true.
Proof.
  intros Hc. apply find_elem in Hc as [_ Hc].
  by eapply header_truthy; [| | |exact Hc].
Qed.

Lemma last_name_col_truthy df c : last_name_col df = Some c → truthy c = true.
Proof.
  intros Hc. apply find_elem in Hc as [_ Hc].
  by eapply header_truthy; [| | |exact Hc].
Qed.

Lemma first_name_col_elem df c : first_name_col df = Some c → c ∈ columns df.
Proof. intros Hc. by apply find_elem in Hc as [? _]. Qed.

Lemma last_name_col_elem df c : last_name_col df = Some c → c ∈ columns df.
Proof. intros Hc. by apply find_elem in Hc as [? _]. Qed.

Lemma company_col_loop_elem headers cols c :
  company_col_loop headers cols = Some c → c ∈ cols ∧ truthy c = true.
Proof.
  induction headers as [|h t IH]; simpl; [done|].
  destruct (next_col _ cols) as [m|] eqn:Hm; [|done].
  destruct (truthy m) eqn:Ht; [|done].
  intros [= <-]. by apply find_elem in Hm as [? _].
Qed.

(** Without one of the two name columns the name key is empty. *)
Lemma user_name_of_missing df row :
  first_name_col df = None ∨ last_name_col df = None →
  user_name_of df row = Ok "".
Proof.
  unfold user_name_of. intros [-> | ->]; [done|].
  by destruct (first_name_col df).
Qed.

(** With both, it is built from the cells under the two detected labels. *)
Lemma user_name_of_both df row fc lc :
  first_name_col df = Some fc → last_name_col df = Some lc →
  user_name_of df row =
    (first ← row_get (columns df) row fc;
     nf ← normalize_text first;
     last ← row_get (columns df) row lc;
     nl ← normalize_text last;
     mret (join_name nf nl)).
Proof.
  intros Hf Hl. unfold user_name_of. rewrite Hf, Hl.
  by rewrite (first_name_col_truthy df fc Hf), (last_name_col_truthy df lc Hl).
Qed.

Lemma user_company_of_missing df row :
  company_col df = None → user_company_of df row = Ok "".
Proof. unfold user_company_of. by intros ->. Qed.

Lemma user_company_of_some df row cc :
  company_col df = Some cc →
  user_company_of df row =
    (company ← row_get (columns df) row cc; normalize_text company).
Proof.
  intros Hc. unfold user_company_of. rewrite Hc.
  by destruct (company_col_loop_elem _ _ _ Hc) as [_ ->].
Qed.

(** pandas' readers hand out distinct column labels; then no cell access is
    a Series and both keys of every row exist. *)
Lemma user_name_of_total df row :
  NoDup (columns df) → ∃ un, user_name_of df row = Ok un.
Proof.
  intros Hnd.
  destruct (first_name_col df) as [fc|] eqn:Hf;
    [|rewrite user_name_of_missing; eauto].
  destruct (last_name_col df) as [lc|] eqn:Hl;
    [|rewrite user_name_of_missing; eauto].
  rewrite (user_name_of_both df row fc lc Hf Hl).
  destruct (row_get_scalar (columns df) row fc Hnd (first_name_col_elem _ _ Hf))
    as [v1 ->].
  destruct (row_get_scalar (columns df) row lc Hnd (last_name_col_elem _ _ Hl))
    as [v2 ->].
  simpl. eauto.
Qed.

Lemma user_company_of_total df row :
  NoDup (columns df) → ∃ uc, user_company_of df row = Ok uc.
Proof.
  intros Hnd.
  destruct (company_col df) as [cc|] eqn:Hc;
    [|rewrite user_company_of_missing; eauto].
  rewrite (user_company_of_some df row cc Hc).
  destruct (company_col_loop_elem _ _ _ Hc) as [Hin _].
  destruct (row_get_scalar (columns df) row cc Hnd Hin) as [v ->].
  simpl. eauto.
Qed.

Lemma classify_row_keys db mode df row un uc :
  user_name_of df row = Ok un → user_company_of df row = Ok uc →
  classify_row db mode df row = Ok (classify db mode un uc).
Proof. unfold classify_row. by intros -> ->. Qed.

Lemma classify_row_total db mode df row :
  NoDup (columns df) → ∃ sc, classify_row db mode df row = Ok sc.
Proof.
  intros Hnd.
  destruct (user_name_of_total df row Hnd) as [un Hun].
  destruct (user_company_of_total df row Hnd) as [uc Huc].
  rewrite (classify_row_keys db mode df row un uc Hun Huc). eauto.
Qed.

End detection.

(** * Classification *)

(** Membership in one of the sample sets. *)
Ltac in_sample := unfold sample_refs; simpl; set_solver.

Section classification.
Implicit Types (db : refs) (mode : option string) (df : dataframe).
Implicit Types (row : list cell) (un uc : string).

Lemma key_in_true k (s : gset string) : key_in k s = true ↔ k ≠ "" ∧ k ∈ s.
Proof.
  unfold key_in. rewrite andb_true_iff, negb_true_iff, is_empty_false.
  by rewrite bool_decide_eq_true.
Qed.

Lemma key_in_empty_key (s : gset string) : key_in "" s = false.
Proof. done. Qed.

Lemma key_in_empty_set k : key_in k ∅ = false.
Proof.
  unfold key_in. rewrite bool_decide_eq_false_2 by apply not_elem_of_empty.
  apply andb_false_r.
Qed.

Lemma matches_true k1 k2 (s1 s2 : gset string) :
  key_in k1 s1 || key_in k2 s2 = true ↔
  (k1 ≠ "" ∧ k1 ∈ s1) ∨ (k2 ≠ "" ∧ k2 ∈ s2).
Proof. by rewrite orb_true_iff, !key_in_true. Qed.

Lemma classify_imneo db mode un uc :
  (un ≠ "" ∧ un ∈ imneo_names db) ∨ (uc ≠ "" ∧ uc ∈ imneo_companies db) →
  classify db mode un uc = ("IMNEO Match (Restricted)", "FF0000").
Proof. intros H. unfold classify. by apply matches_true in H as ->. Qed.

Lemma classify_xclient db mode un uc :
  ¬ ((un ≠ "" ∧ un ∈ imneo_names db) ∨ (uc ≠ "" ∧ uc ∈ imneo_companies db)) →
  (un ≠ "" ∧ un ∈ xclient_names db) ∨ (uc ≠ "" ∧ uc ∈ xclient_companies db) →
  classify db mode un uc =
    if bool_decide (mode = Some "candidate")
    then ("X-Client Match (Candidate Mode)", "FF0000")
    else ("X-Client Match (Client/Relation)", "FFFF00").
Proof.
  intros Hi Hx. unfold classify.
  rewrite <- matches_true in Hi. apply not_true_is_false in Hi as ->.
  by apply matches_true in Hx as ->.
Qed.

Lemma classify_safe db mode un uc :
  ¬ ((un ≠ "" ∧ un ∈ imneo_names db) ∨ (uc ≠ "" ∧ uc ∈ imneo_companies db)) →
  ¬ ((un ≠ "" ∧ un ∈ xclient_names db) ∨ (uc ≠ "" ∧ uc ∈ xclient_companies db)) →
  classify db mode un uc = ("Safe", "FFFFFF").
Proof.
  intros Hi Hx. unfold classify.
  rewrite <- matches_true in Hi. apply not_true_is_false in Hi as ->.
  rewrite <- matches_true in Hx. by apply not_true_is_false in Hx as ->.
Qed.

(** C1: a row whose derived key matches IMNEO, by a non-empty name among
    the IMNEO names or a non-empty company among the IMNEO companies, is
    classified [IMNEO Match (Restricted)] with colour [FF0000] in every
    mode, whatever the X-CLIENT sets hold; so no X-CLIENT outcome is
    produced for it. *)
Theorem imneo_match_takes_precedence db mode df row un uc :
  user_name_of df row = Ok un → user_company_of df row = Ok uc →
  (un ≠ "" ∧ un ∈ imneo_names db) ∨ (uc ≠ "" ∧ uc ∈ imneo_companies db) →
  classify_row db mode df row = Ok ("IMNEO Match (Restricted)", "FF0000").
Proof.
  intros Hun Huc Hm.
  rewrite (classify_row_keys db mode df row un uc Hun Huc).
  by rewrite classify_imneo.
Qed.

Lemma imneo_match_takes_precedence_witness :
  "jane doe" ∈ xclient_names sample_refs ∧
  classify_row sample_refs (Some "client") sample_table sample_row_jane
    = Ok ("IMNEO Match (Restricted)", "FF0000").
Proof.
  split; [in_sample|].
  apply (imneo_match_takes_precedence _ _ _ _ "jane doe" "").
  - reflexivity.
  - reflexivity.
  - left. split; [discriminate | in_sample].
Defined.

(** C2: a row that matches X-CLIENT and not IMNEO is classified
    [X-Client Match (Candidate Mode)] with colour [FF0000] when the mode is
    [candidate], and [X-Client Match (Client/Relation)] with colour
    [FFFF00] for every other mode value, a missing one included. *)
Theorem xclient_match_follows_mode db mode df row un uc :
  user_name_of df row = Ok un → user_company_of df row = Ok uc →
  ¬ ((un ≠ "" ∧ un ∈ imneo_names db) ∨ (uc ≠ "" ∧ uc ∈ imneo_companies db)) →
  (un ≠ "" ∧ un ∈ xclient_names db) ∨ (uc ≠ "" ∧ uc ∈ xclient_companies db) →
  (mode = Some "candidate" →
   classify_row db mode df row = Ok ("X-Client Match (Candidate Mode)", "FF0000")) ∧
  (mode ≠ Some "candidate" →
   classify_row db mode df row = Ok ("X-Client Match (Client/Relation)", "FFFF00")).
Proof.
  intros Hun Huc Hi Hx.
  rewrite (classify_row_keys db mode df row un uc Hun Huc).
  rewrite (classify_xclient db mode un uc Hi Hx).
  split; intros Hmode.
  - by rewrite bool_decide_eq_true_2.
  - by rewrite bool_decide_eq_false_2.
Qed.

Lemma xclient_match_follows_mode_witness :
  classify_row sample_refs (Some "candidate") sample_table sample_row_acme
    = Ok ("X-Client Match (Candidate Mode)", "FF0000") ∧
  classify_row sample_refs None sample_table sample_row_acme
    = Ok ("X-Client Match (Client/Relation)", "FFFF00").
Proof.
  assert (Hi : ¬ (("" ≠ "" ∧ "" ∈ imneo_names sample_refs) ∨
                  ("acme corp" ≠ "" ∧ "acme corp" ∈ imneo_companies sample_refs))).
  { intros [[Hne _]|[_ Hin]]; [by apply Hne|].
    by apply not_elem_of_empty in Hin. }
  assert (Hx : ("" ≠ "" ∧ "" ∈ xclient_names sample_refs) ∨
               ("acme corp" ≠ "" ∧ "acme corp" ∈ xclient_companies sample_refs)).
  { right. split; [discriminate | in_sample]. }
  split.
  - apply (xclient_match_follows_mode sample_refs (Some "candidate") sample_table
             sample_row_acme "" "acme corp" eq_refl eq_refl Hi Hx).
    reflexivity.
  - apply (xclient_match_follows_mode sample_refs None sample_table
             sample_row_acme "" "acme corp" eq_refl eq_refl Hi Hx).
    discriminate.
Defined.

End classification.

(** * Name columns and the name key *)

Section name_key.
Implicit Types (df : dataframe) (row : list cell) (c : cell).

(** C3, the claim as it stands fails: with a first-name column and no
    last-name column the classifier derives the empty name key, not the
    lone first name. *)
Lemma name_key_not_independent :
  first_name_col first_only_table = Some (CStr "First Name") ∧
  last_name_col first_only_table = None ∧
  independent_user_name first_only_table [CStr "Jane"] = Ok "jane" ∧
  user_name_of first_only_table [CStr "Jane"] = Ok "" ∧
  user_name_of first_only_table [CStr "Jane"]
    ≠ independent_user_name first_only_table [CStr "Jane"].
Proof. repeat split; done. Qed.

(** C3, amended: in the row classifier the name key needs both name
    columns. For every uploaded table in which the first-name column or the
    last-name column is not detected, the derived userName of every row is
    the empty string, whatever the detected column holds. Only the company
    key degrades on its own: it is the normalized cell of the company
    column when one is detected and empty otherwise, whatever the name
    columns are. *)
Theorem name_key_needs_both_columns df row :
  (first_name_col df = None ∨ last_name_col df = None →
   user_name_of df row = Ok "") ∧
  user_company_of df row = component df row (company_col df).
Proof.
  split; [apply user_name_of_missing|].
  destruct (company_col df) as [cc|] eqn:Hc; simpl.
  - by apply user_company_of_some.
  - by apply user_company_of_missing.
Qed.

Lemma name_key_needs_both_columns_witness :
  user_name_of first_only_table [CStr "Jane"] = Ok "".
Proof.
  apply (proj1 (name_key_needs_both_columns first_only_table [CStr "Jane"])).
  right. reflexivity.
Defined.

(** C5, the claim as it stands fails: in a table whose columns are [naam],
    [first name], [last name] the alias priority picks [first name], the
    code picks [naam], the leftmost of the two. *)
Lemma first_name_col_not_by_priority :
  priority_col first_name_fields (columns two_alias_table)
    = Some (CStr "first name") ∧
  first_name_col two_alias_table = Some (CStr "naam") ∧
  user_name_of two_alias_table [CStr "x"; CStr "Jane"; CStr "Doe"] = Ok "x doe" ∧
  first_name_col two_alias_table
    ≠ priority_col first_name_fields (columns two_alias_table).
Proof. repeat split; done. Qed.

(** C5, amended: classifier column detection selects the name columns by
    table order, not by alias priority. The first-name column is the
    leftmost column whose lowercased, trimmed header is one of
    [first name], [voor naam], [naam]; the last-name column is the leftmost
    column whose header is one of [last name], [achternaam]; and the cells
    under the two selected columns are the ones every row's name key is
    built from. *)
Theorem name_cols_by_table_order df :
  (∀ pre c post,
     columns df = pre ++ c :: post →
     (∀ x, x ∈ pre → norm_header x ∉ first_name_fields) →
     norm_header c ∈ first_name_fields →
     first_name_col df = Some c) ∧
  (∀ pre c post,
     columns df = pre ++ c :: post →
     (∀ x, x ∈ pre → norm_header x ∉ last_name_fields) →
     norm_header c ∈ last_name_fields →
     last_name_col df = Some c) ∧
  (∀ fc lc row,
     first_name_col df = Some fc → last_name_col df = Some lc →
     user_name_of df row =
       (first ← row_get (columns df) row fc;
        nf ← normalize_text first;
        last ← row_get (columns df) row lc;
        nl ← normalize_text last;
        mret (join_name nf nl))).
Proof.
  split; [|split].
  - intros pre c post Hcols Hpre Hc. unfold first_name_col, next_col.
    rewrite Hcols. apply find_first.
    + intros y Hy. by apply str_in_not_elem, Hpre.
    + by apply str_in_elem.
  - intros pre c post Hcols Hpre Hc. unfold last_name_col, next_col.
    rewrite Hcols. apply find_first.
    + intros y Hy. by apply str_in_not_elem, Hpre.
    + by apply str_in_elem.
  - intros fc lc row. apply user_name_of_both.
Qed.

Lemma name_cols_by_table_order_witness :
  first_name_col two_alias_table = Some (CStr "naam").
Proof.
  apply (proj1 (name_cols_by_table_order two_alias_table)
           [] (CStr "naam") [CStr "first name"; CStr "last name"]).
  - reflexivity.
  - intros x Hx. by apply elem_of_nil in Hx.
  - apply str_in_elem. reflexivity.
Defined.

End name_key.

(** * The loop over the uploaded rows *)

Section rows_loop.
Implicit Types (db : refs) (mode : option string) (df : dataframe).

Lemma classify_loop_spec db mode df rs : ∀ results colors r c,
  classify_loop db mode df rs results colors = Ok (r, c) →
  ∃ scs, Forall2 (λ row sc, classify_row db mode df row = Ok sc) rs scs ∧
         r = results ++ scs.*1 ∧ c = colors ++ scs.*2.
Proof.
  induction rs as [|row rs IH]; simpl; intros results colors r c Hloop.
  - injection Hloop as <- <-. exists []. by rewrite !app_nil_r.
  - destruct (classify_row db mode df row) as [sc|e] eqn:Hrow; [|done].
    simpl in Hloop. apply IH in Hloop as (scs & Hall & -> & ->).
    exists (sc :: scs). split; [by constructor|].
    by rewrite <- !app_assoc.
Qed.

Lemma classify_loop_total db mode df rs : ∀ results colors,
  (∀ row, row ∈ rs → ∃ sc, classify_row db mode df row = Ok sc) →
  ∃ rc, classify_loop db mode df rs results colors = Ok rc.
Proof.
  induction rs as [|row rs IH]; simpl; intros results colors Hrows; [eauto|].
  destruct (Hrows row) as [sc ->]; [left|]. simpl.
  apply IH. intros r Hr. apply Hrows. by right.
Qed.

(** C9: for every uploaded table (its column labels distinct, as the
    pandas readers deliver them) the classifier returns one status and one
    colour per input row, and the i-th status and colour are the
    classification of the i-th input row; they are what [upload_file]
    writes out. *)
Theorem one_result_per_row_in_order db mode df :
  NoDup (columns df) →
  ∃ results colors,
    classify_table db mode df = Ok (results, colors) ∧
    length results = length (rows df) ∧
    length colors = length (rows df) ∧
    (∀ i row, rows df !! i = Some row →
       ∃ status color,
         classify_row db mode df row = Ok (status, color) ∧
         results !! i = Some status ∧ colors !! i = Some color) ∧
    (∀ file, filename file ≠ "" →
       read_table (filename file) (content file) = Some df →
       upload_file db (Request (Some file) mode) = Checked df results colors).
Proof.
  intros Hnd. unfold classify_table.
  destruct (classify_loop_total db mode df (rows df) [] []) as [[r c] Hloop].
  { intros row _. by apply classify_row_total. }
  exists r, c. split; [done|].
  destruct (classify_loop_spec _ _ _ _ _ _ _ _ Hloop) as (scs & Hall & -> & ->).
  simpl. rewrite !length_fmap, <- (Forall2_length _ _ _ Hall).
  repeat split; [| ].
  - intros i row Hi.
    destruct (Forall2_lookup_l _ _ _ _ _ Hall Hi) as ([status color] & Hsc & Hrow).
    exists status, color. rewrite !list_lookup_fmap, Hsc. by simpl.
  - intros file Hname Hread. unfold upload_file, classify_table. simpl.
    apply is_empty_false in Hname. by rewrite Hname, Hread, Hloop.
Qed.

Lemma one_result_per_row_in_order_witness :
  ∃ results colors,
    classify_table sample_refs (Some "client") sample_table = Ok (results, colors) ∧
    length results = 3 ∧ length colors = 3.
Proof.
  destruct (one_result_per_row_in_order sample_refs (Some "client") sample_table)
    as (results & colors & Ht & Hr & Hc & _).
  - by apply (bool_decide_unpack _).
  - exists results, colors. by rewrite Hr, Hc.
Defined.

End rows_loop.

(** * The reference set builder *)

Ltac loader_simpl :=
  unfold mbind, loader_bind, lift, mret, loader_ret, add_name, add_company;
  simpl.

Section loader.
Implicit Types (cols : list string) (row : list cell) (st : sets).
Implicit Types (fs : filesystem) (df : dataframe).

Lemma sets_le_refl st : sets_le st st.
Proof. by split. Qed.

Lemma sets_le_trans st1 st2 st3 :
  sets_le st1 st2 → sets_le st2 st3 → sets_le st1 st3.
Proof. intros [? ?] [? ?]. split; by etrans. Qed.

Lemma add_key_ok k (s : gset string) : "" ∉ s → "" ∉ add_key k s.
Proof.
  unfold add_key. destruct (is_empty k) eqn:E; [done|].
  apply is_empty_false in E. intros Hs.
  rewrite elem_of_union, elem_of_singleton. intros [Hk|Hk]; [by apply E|done].
Qed.

Lemma add_key_le k (s : gset string) : s ⊆ add_key k s.
Proof. unfold add_key. destruct (is_empty k); set_solver. Qed.

Lemma add_key_elem k (s : gset string) : k ≠ "" → k ∈ add_key k s.
Proof.
  intros Hk. unfold add_key. apply is_empty_false in Hk as ->. set_solver.
Qed.

(** One row, step by step: the name is added before the company is looked
    at, so a failing company still leaves the name behind. *)
Lemma load_row_unfold cols row st :
  load_row cols row st =
    match get_first cols row, get_last cols row, get_company cols row with
    | Ok first, Ok last, Ok company =>
        match normalize_text first, normalize_text last with
        | Ok nf, Ok nl =>
            match normalize_text company with
            | Ok nc =>
                ((add_key (join_name nf nl) st.1, add_key nc st.2), Ok tt)
            | Raise e => ((add_key (join_name nf nl) st.1, st.2), Raise e)
            end
        | Ok _, Raise e => (st, Raise e)
        | Raise e, _ => (st, Raise e)
        end
    | Ok _, Ok _, Raise e => (st, Raise e)
    | Ok _, Raise e, _ => (st, Raise e)
    | Raise e, _, _ => (st, Raise e)
    end.
Proof.
  unfold load_row. loader_simpl.
  destruct (get_first cols row) as [first|]; [|done].
  destruct (get_last cols row) as [last|]; [|done].
  destruct (get_company cols row) as [company|]; [|done].
  destruct (normalize_text first) as [nf|]; [|done].
  destruct (normalize_text last) as [nl|]; [|done].
  unfold add_key. destruct st as [ns cs]. simpl.
  destruct (is_empty (join_name nf nl)); simpl;
    destruct (normalize_text company) as [nc|]; simpl; try done;
    by destruct (is_empty nc).
Qed.

Lemma load_row_inv cols row st : keys_ok st → keys_ok (load_row cols row st).1.
Proof.
  intros [Hn Hc]. rewrite load_row_unfold.
  repeat case_match; simpl; split; simpl; auto using add_key_ok.
Qed.

Lemma load_row_mono cols row st : sets_le st (load_row cols row st).1.
Proof.
  rewrite load_row_unfold.
  repeat case_match; simpl; split; simpl; auto using add_key_le.
Qed.

Lemma iterrows_cons (body : list cell → loader unit) r rs st :
  iterrows body (r :: rs) st =
    match body r st with
    | (st', Ok _) => iterrows body rs st'
    | (st', Raise e) => (st', Raise e)
    end.
Proof. done. Qed.

Lemma iterrows_inv cols rs : ∀ st,
  keys_ok st → keys_ok (iterrows (load_row cols) rs st).1.
Proof.
  induction rs as [|r rs IH]; intros st Hst; [done|].
  rewrite iterrows_cons. pose proof (load_row_inv cols r st Hst) as Hr.
  destruct (load_row cols r st) as [st' [[]|e]]; simpl in *; auto.
Qed.

Lemma iterrows_mono cols rs : ∀ st,
  sets_le st (iterrows (load_row cols) rs st).1.
Proof.
  induction rs as [|r rs IH]; intros st; [apply sets_le_refl|].
  rewrite iterrows_cons. pose proof (load_row_mono cols r st) as Hr.
  destruct (load_row cols r st) as [st' [[]|e]]; simpl in *; [|done].
  by eapply sets_le_trans.
Qed.

Lemma load_file_inv fs filename st : keys_ok st → keys_ok (load_file fs filename st).
Proof.
  intros Hst. unfold load_file. repeat case_match; try done.
  by apply iterrows_inv.
Qed.

Lemma load_file_mono fs filename st : sets_le st (load_file fs filename st).
Proof.
  unfold load_file. repeat case_match; try apply sets_le_refl.
  apply iterrows_mono.
Qed.

Lemma load_file_missing fs filename st :
  files fs !! filename = None → load_file fs filename st = st.
Proof. unfold load_file. by intros ->. Qed.

Lemma load_files_inv fs filenames : ∀ st,
  keys_ok st →
  keys_ok (fold_left (λ st filename, load_file fs filename st) filenames st).
Proof.
  induction filenames as [|f l IH]; simpl; intros st Hst; [done|].
  by apply IH, load_file_inv.
Qed.

Lemma load_files_mono fs filenames : ∀ st,
  sets_le st (fold_left (λ st filename, load_file fs filename st) filenames st).
Proof.
  induction filenames as [|f l IH]; simpl; intros st; [apply sets_le_refl|].
  eapply sets_le_trans; [apply load_file_mono | apply IH].
Qed.

Lemma load_database_set_inv fs filenames : keys_ok (load_database_set fs filenames).
Proof.
  unfold load_database_set. destruct (folder_exists fs); simpl.
  - apply load_files_inv. split; apply not_elem_of_empty.
  - split; apply not_elem_of_empty.
Qed.

Lemma load_database_set_absent fs filenames :
  folder_exists fs = false → load_database_set fs filenames = (∅, ∅).
Proof. unfold load_database_set. by intros ->. Qed.

Lemma startup_absent render fs :
  folder_exists fs = false → startup render fs = Refs ∅ ∅ ∅ ∅.
Proof.
  intros Hf. unfold startup.
  rewrite !(load_database_set_absent fs _ Hf), Hf.
  by destruct (bool_decide (render = None)).
Qed.

End loader.

(** * Field extraction in the reference set builder *)

Section fields.
Implicit Types (cols : list string) (row : list cell).

(** A boolean check that none of [fields] is a header of the table. *)
Lemma fields_absent (fields : list string) cols :
  forallb (λ a, negb (str_in a cols)) fields = true →
  ∀ a, a ∈ fields → a ∉ cols.
Proof.
  rewrite forallb_forall. intros Hall a Ha.
  apply str_in_not_elem, negb_true_iff, Hall. by apply list_elem_of_In.
Qed.

(** The three [if]/[elif] chains read the first field of their list that
    is a header, and the empty text when none is. *)
Lemma get_fields_spec cols row :
  let pick fields :=
    match find (λ a, str_in a cols) fields with
    | Some a => row_get cols row a
    | None => Ok (Scalar (CStr ""))
    end in
  get_first cols row = pick first_name_fields ∧
  get_last cols row = pick last_name_fields ∧
  get_company cols row = pick company_fields.
Proof.
  simpl. unfold get_first, get_last, get_company.
  repeat split; repeat (destruct (str_in _ cols); [done|]); done.
Qed.

Lemma find_field_first cols (pre : list string) a post :
  (∀ b, b ∈ pre → b ∉ cols) → a ∈ cols →
  find (λ a, str_in a cols) (pre ++ a :: post) = Some a.
Proof.
  intros Hpre Ha. apply find_first.
  - intros b Hb. by apply str_in_not_elem, Hpre.
  - by apply str_in_elem.
Qed.

Lemma find_field_none cols (fields : list string) :
  (∀ b, b ∈ fields → b ∉ cols) → find (λ a, str_in a cols) fields = None.
Proof. intros Hf. apply find_none. intros b Hb. by apply str_in_not_elem, Hf. Qed.



Lemma pick_scalar cols row (fields : list string) :
  NoDup cols →
  ∃ c, match find (λ a, str_in a cols) fields with
       | Some a => row_get cols row a
       | None => Ok (Scalar (CStr ""))
       end = Ok (Scalar c).
Proof.
  intros Hnd. destruct (find _ fields) as [a|] eqn:Ha; [|eauto].
  apply find_elem in Ha as [_ Ha]. apply str_in_elem in Ha.
  by apply row_get_scalar.
Qed.

(** C8: per-row company extraction in the reference set builder is
    first-match-wins in the order [company name], [company],
    [huidig bedrijf], [currrent company], [current company],
    [company table data]: the value taken is the one under the earliest of
    these that is a header of the file (the cell of that column, when the
    header occurs once), and when none of them is a header the company
    value is the empty text, which normalizes to the empty key without an
    error. *)
Theorem company_field_first_match_wins cols row :
  (∀ pre a post,
     company_fields = pre ++ a :: post →
     (∀ b, b ∈ pre → b ∉ cols) → a ∈ cols →
     get_company cols row = row_get cols row a ∧
     (∀ i v, NoDup cols → cols !! i = Some a → row !! i = Some v →
             get_company cols row = Ok (Scalar v))) ∧
  ((∀ b, b ∈ company_fields → b ∉ cols) →
   get_company cols row = Ok (Scalar (CStr "")) ∧
   (get_company cols row ≫= normalize_text) = Ok "").
Proof.
  destruct (get_fields_spec cols row) as (_ & _ & Hc). split.
  - intros pre a post Hfields Hpre Ha.
    assert (get_company cols row = row_get cols row a) as Hget.
    { rewrite Hc, Hfields. by rewrite find_field_first. }
    split; [done|]. intros i v Hnd Hi Hv.
    rewrite Hget. by eapply row_get_lookup.
  - intros Hnone. rewrite Hc, find_field_none by done. done.
Qed.

Lemma company_field_first_match_wins_witness :
  get_company ["company"; "name"; "company name"]
              [CStr "second"; CStr "n"; CStr "first"]
    = Ok (Scalar (CStr "first")) ∧
  get_company ["name"] [CStr "n"] = Ok (Scalar (CStr "")).
Proof.
  split.
  - refine (proj2 (proj1 (company_field_first_match_wins
                     ["company"; "name"; "company name"]
                     [CStr "second"; CStr "n"; CStr "first"])
                   [] "company name" _ eq_refl _ _) 2 (CStr "first") _ eq_refl eq_refl).
    + intros b Hb. by apply elem_of_nil in Hb.
    + apply str_in_elem. reflexivity.
    + by apply (bool_decide_unpack _).
  - refine (proj1 (proj2 (company_field_first_match_wins ["name"] [CStr "n"]) _)).
    by apply fields_absent.
Defined.

End fields.

(** * What one row leaves in the sets *)

Section additions.
Implicit Types (cols : list string) (row : list cell) (st : sets).
Implicit Types (fs : filesystem) (df : dataframe).

(** With distinct headers every field of every row is a scalar, no row
    raises, and a row adds its name key and its company key when they are
    not empty. *)
Lemma load_row_ok cols row st :
  NoDup cols →
  ∃ f l c,
    get_first cols row = Ok (Scalar f) ∧
    get_last cols row = Ok (Scalar l) ∧
    get_company cols row = Ok (Scalar c) ∧
    load_row cols row st =
      ((add_key (join_name (normalize_scalar f) (normalize_scalar l)) (fst st),
        add_key (normalize_scalar c) (snd st)), Ok tt).
Proof.
  intros Hnd. rewrite load_row_unfold.
  destruct (get_fields_spec cols row) as (-> & -> & ->).
  destruct (pick_scalar cols row first_name_fields Hnd) as [f ->].
  destruct (pick_scalar cols row last_name_fields Hnd) as [l ->].
  destruct (pick_scalar cols row company_fields Hnd) as [c ->].
  by exists f, l, c.
Qed.

Lemma iterrows_adds_name cols rs row f l : ∀ st,
  NoDup cols → row ∈ rs →
  get_first cols row = Ok (Scalar f) → get_last cols row = Ok (Scalar l) →
  join_name (normalize_scalar f) (normalize_scalar l) ≠ "" →
  join_name (normalize_scalar f) (normalize_scalar l)
    ∈ fst (fst (iterrows (load_row cols) rs st)).
Proof.
  intros st Hnd Hrow Hf Hl Hne. revert st.
  induction rs as [|r rs IH]; intros st; [by apply elem_of_nil in Hrow|].
  rewrite iterrows_cons.
  destruct (load_row_ok cols r st Hnd) as (f' & l' & c' & Hf' & Hl' & _ & ->).
  apply elem_of_cons in Hrow as [<-|Hrow].
  - rewrite Hf in Hf'. rewrite Hl in Hl'. simplify_eq.
    apply (iterrows_mono cols rs _). simpl. by apply add_key_elem.
  - by apply IH.
Qed.

Lemma load_file_adds_name fs filename fc df row f l st :
  files fs !! filename = Some fc → read_table filename fc = Some df →
  NoDup (map norm_header (columns df)) → row ∈ rows df →
  get_first (map norm_header (columns df)) row = Ok (Scalar f) →
  get_last (map norm_header (columns df)) row = Ok (Scalar l) →
  join_name (normalize_scalar f) (normalize_scalar l) ≠ "" →
  join_name (normalize_scalar f) (normalize_scalar l)
    ∈ fst (load_file fs filename st).
Proof.
  intros Hfile Hread Hnd Hrow Hf Hl Hne. unfold load_file.
  rewrite Hfile, Hread. by apply (iterrows_adds_name _ _ row).
Qed.

Lemma load_files_keep fs filenames k : ∀ st,
  k ∈ fst st →
  k ∈ fst (fold_left (λ st filename, load_file fs filename st) filenames st).
Proof. intros st Hk. by apply (load_files_mono fs filenames st). Qed.

Lemma load_database_set_adds_name fs filenames filename fc df row f l :
  folder_exists fs = true → filename ∈ filenames →
  files fs !! filename = Some fc → read_table filename fc = Some df →
  NoDup (map norm_header (columns df)) → row ∈ rows df →
  get_first (map norm_header (columns df)) row = Ok (Scalar f) →
  get_last (map norm_header (columns df)) row = Ok (Scalar l) →
  join_name (normalize_scalar f) (normalize_scalar l) ≠ "" →
  join_name (normalize_scalar f) (normalize_scalar l)
    ∈ fst (load_database_set fs filenames).
Proof.
  intros Hfolder Hin Hfile Hread Hnd Hrow Hf Hl Hne.
  unfold load_database_set. rewrite Hfolder. simpl.
  apply list_elem_of_split in Hin as (l1 & l2 & ->).
  rewrite fold_left_app. simpl. apply load_files_keep.
  by eapply load_file_adds_name.
Qed.

End additions.

(** * The empty key and the absent folder *)

Section inert.
Implicit Types (db : refs) (mode : option string) (df : dataframe).
Implicit Types (fs : filesystem) (row : list cell).

Lemma classify_empty_keys db mode : classify db mode "" "" = ("Safe", "FFFFFF").
Proof. done. Qed.

Lemma classify_empty_refs mode un uc :
  classify (Refs ∅ ∅ ∅ ∅) mode un uc = ("Safe", "FFFFFF").
Proof. unfold classify. simpl. by rewrite !key_in_empty_set. Qed.

Lemma startup_keys_ok render fs :
  keys_ok (imneo_names (startup render fs), imneo_companies (startup render fs)) ∧
  keys_ok (xclient_names (startup render fs), xclient_companies (startup render fs)).
Proof.
  unfold startup.
  destruct (bool_decide (render = None) || folder_exists fs); simpl.
  - split; apply load_database_set_inv.
  - repeat split; apply not_elem_of_empty.
Qed.

(** C6: the empty normalized key is inert. The reference set builder never
    puts the empty string into a names or companies set, so none of the
    four sets holds it after start-up; and a row whose derived userName and
    userCompany are both empty, such as every row of a table without
    detected name and company columns, is classified [Safe] with colour
    [FFFFFF] whatever the reference sets are. *)
Theorem empty_key_is_inert :
  (∀ fs filenames,
     ("" ∉ fst (load_database_set fs filenames)) ∧
     ("" ∉ snd (load_database_set fs filenames))) ∧
  (∀ render fs,
     ("" ∉ imneo_names (startup render fs)) ∧
     ("" ∉ imneo_companies (startup render fs)) ∧
     ("" ∉ xclient_names (startup render fs)) ∧
     ("" ∉ xclient_companies (startup render fs))) ∧
  (∀ db mode df row,
     user_name_of df row = Ok "" → user_company_of df row = Ok "" →
     classify_row db mode df row = Ok ("Safe", "FFFFFF")) ∧
  (∀ db mode df row,
     first_name_col df = None ∨ last_name_col df = None →
     company_col df = None →
     classify_row db mode df row = Ok ("Safe", "FFFFFF")).
Proof.
  split; [|split; [|split]].
  - intros fs filenames. apply load_database_set_inv.
  - intros render fs.
    destruct (startup_keys_ok render fs) as [[? ?] [? ?]]. by repeat split.
  - intros db mode df row Hun Huc.
    by rewrite (classify_row_keys db mode df row "" "" Hun Huc).
  - intros db mode df row Hname Hcomp.
    by rewrite (classify_row_keys db mode df row "" ""
                  (user_name_of_missing df row Hname)
                  (user_company_of_missing df row Hcomp)).
Qed.

Lemma empty_key_is_inert_witness :
  classify_row sample_refs (Some "candidate") first_only_table [CStr "Jane"]
    = Ok ("Safe", "FFFFFF").
Proof.
  apply (proj2 (proj2 (proj2 empty_key_is_inert))).
  - right. reflexivity.
  - reflexivity.
Defined.

(** C7: reference loading fails open. When the configured folder does not
    exist the builder returns two empty sets for every list of files; a
    file of the list that does not exist is skipped and the files before
    and after it are processed as if it were not listed; and with the
    folder absent all four sets are empty after start-up, so every row of
    every uploaded table is classified [Safe] with colour [FFFFFF],
    whatever it holds. *)
Theorem loading_fails_open :
  (∀ fs filenames,
     folder_exists fs = false → load_database_set fs filenames = (∅, ∅)) ∧
  (∀ fs before filename after,
     files fs !! filename = None →
     load_database_set fs (before ++ filename :: after)
       = load_database_set fs (before ++ after)) ∧
  (∀ render fs,
     folder_exists fs = false → startup render fs = Refs ∅ ∅ ∅ ∅) ∧
  (∀ render fs mode un uc,
     folder_exists fs = false →
     classify (startup render fs) mode un uc = ("Safe", "FFFFFF")) ∧
  (∀ render fs mode df row,
     folder_exists fs = false → NoDup (columns df) →
     classify_row (startup render fs) mode df row = Ok ("Safe", "FFFFFF")).
Proof.
  split; [|split; [|split; [|split]]].
  - apply load_database_set_absent.
  - intros fs before filename after Hmissing. unfold load_database_set.
    destruct (folder_exists fs); simpl; [|done].
    rewrite !fold_left_app. simpl. by rewrite load_file_missing.
  - apply startup_absent.
  - intros render fs mode un uc Hf.
    rewrite (startup_absent render fs Hf). apply classify_empty_refs.
  - intros render fs mode df row Hf Hnd.
    destruct (user_name_of_total df row Hnd) as [un Hun].
    destruct (user_company_of_total df row Hnd) as [uc Huc].
    rewrite (classify_row_keys _ mode df row un uc Hun Huc).
    rewrite (startup_absent render fs Hf). by rewrite classify_empty_refs.
Qed.

Lemma loading_fails_open_witness :
  load_database_set absent_fs IMNEO_FILES = (∅, ∅) ∧
  load_database_set sample_fs ["missing.csv"; "imneo.csv"]
    = load_database_set sample_fs ["imneo.csv"] ∧
  classify_row (startup None absent_fs) (Some "candidate") sample_table
               sample_row_jane = Ok ("Safe", "FFFFFF").
Proof.
  split; [|split].
  - apply (proj1 loading_fails_open). reflexivity.
  - apply (proj1 (proj2 loading_fails_open) sample_fs [] "missing.csv" ["imneo.csv"]).
    unfold sample_fs. simpl. by apply lookup_singleton_ne.
  - apply (proj2 (proj2 (proj2 (proj2 loading_fails_open)))).
    + reflexivity.
    + by apply (bool_decide_unpack _).
Defined.

End inert.

(** * Scenarios *)

Section scenarios.

(** The three rows of the sample table under mode [client]. *)
Example sample_table_client :
  classify_table sample_refs (Some "client") sample_table
    = Ok (["IMNEO Match (Restricted)"; "X-Client Match (Client/Relation)"; "Safe"],
          ["FF0000"; "FFFF00"; "FFFFFF"]).
Proof. reflexivity. Qed.

Example sample_table_candidate :
  classify_table sample_refs (Some "candidate") sample_table
    = Ok (["IMNEO Match (Restricted)"; "X-Client Match (Candidate Mode)"; "Safe"],
          ["FF0000"; "FF0000"; "FFFFFF"]).
Proof. reflexivity. Qed.

(** Internal double spaces are kept: only the ends are trimmed. *)
Example inner_spaces_kept :
  normalize_text (Scalar (CStr " john   smith ")) = Ok "john   smith".
Proof. reflexivity. Qed.

Example int_cell_text : normalize_text (Scalar (CInt (-42))) = Ok "-42".
Proof. reflexivity. Qed.

(** The sample folder: the first row gives the lone first name [jane], the
    second row has no name at all and adds only its company. *)
Example sample_fs_sets :
  load_database_set sample_fs IMNEO_FILES
    = ({[ "jane" ]}, {[ "acme corp"; "other inc" ]}).
Proof.
  unfold load_database_set, IMNEO_FILES, load_file, sample_fs. simpl.
  rewrite lookup_singleton_eq. simpl.
  rewrite !lookup_singleton_ne by done.
  unfold sample_reference. simpl. f_equal; set_solver.
Qed.

(** Two headers that read [company] once lowercased and trimmed: the cell
    access is a Series, the first row's name is already in the set when the
    company raises, and the rest of the file is lost. *)
Example duplicated_header_aborts_file :
  iterrows (load_row ["first name"; "company"; "company"])
           [[CStr "Jane"; CStr "a"; CStr "b"]; [CStr "Bob"; CStr "c"; CStr "d"]]
           (∅, ∅)
    = (({[ "jane" ]} ∪ ∅, ∅), Raise ValueError).
Proof. reflexivity. Qed.

Example no_file_part sample :
  upload_file sample (Request None (Some "client")) = BadRequest "No file uploaded".
Proof. reflexivity. Qed.

End scenarios.

(** * Further properties of [normalize_text] *)

Section normalize_more.
Implicit Types (s : string) (c : cell).

Lemma lower_app s1 s2 : lower (s1 +:+ s2) = lower s1 +:+ lower s2.
Proof. induction s1 as [|a s1 IH]; simpl; [done|]. by rewrite IH. Qed.

Lemma rstrip_empty_no_lead s : no_lead_space s → rstrip s = "" → s = "".
Proof.
  destruct s as [|a s]; simpl; [done|]. intros ->. by simpl.
Qed.

Lemma strip_empty_blank s : strip s = "" ↔ blank s = true.
Proof.
  unfold strip, blank. rewrite is_empty_true. split.
  - apply rstrip_empty_no_lead, lstrip_no_lead.
  - by intros ->.
Qed.

Lemma blank_lower s : blank (lower s) = blank s.
Proof. unfold blank. by rewrite lstrip_lower, is_empty_lower. Qed.

(** A text that lowercases to [nan] has no white space to trim. *)
Lemma lower_nan_strip s : lower s = "nan" → strip s = s.
Proof.
  destruct s as [|a [|b [|c [|d s]]]]; simpl; try done.
  intros [= Ha Hb Hc].
  pose proof (py_isspace_lower a) as Ea. rewrite Ha in Ea.
  pose proof (py_isspace_lower b) as Eb. rewrite Hb in Eb.
  pose proof (py_isspace_lower c) as Ec. rewrite Hc in Ec.
  unfold strip. simpl. rewrite <- Ea. simpl.
  by rewrite <- Ea, <- Eb, <- Ec.
Qed.

Lemma normalize_scalar_normal c : normal_key (normalize_scalar c).
Proof. split; [apply normalize_scalar_lower | apply normalize_scalar_stripped]. Qed.

(** Every key [normalize_text] returns is lowercase and has no white space
    at either end. *)
Theorem normalize_text_normal_form x y :
  normalize_text x = Ok y → lower y = y ∧ strip y = y.
Proof.
  intros Hx. apply normalize_text_ok in Hx as (c & -> & ->).
  apply normalize_scalar_normal.
Qed.

Lemma normalize_text_normal_form_witness :
  lower "john smith" = "john smith" ∧ strip "john smith" = "john smith".
Proof.
  apply (normalize_text_normal_form (Scalar (CStr "  John SMITH "))).
  reflexivity.
Defined.

(** Matching ignores case, and ignores white space around a text unless the
    trimmed text reads [nan]: two texts that agree once lowercased have the
    same key, and so have a text and its trimmed form. *)
Theorem normalize_text_ignores_case_and_padding :
  (∀ s1 s2, lower s1 = lower s2 →
     normalize_text (Scalar (CStr s1)) = normalize_text (Scalar (CStr s2))) ∧
  (∀ s, lower (strip s) ≠ "nan" →
     normalize_text (Scalar (CStr (strip s))) = normalize_text (Scalar (CStr s))).
Proof.
  split.
  - intros s1 s2 Hs. simpl. unfold normalize_scalar. simpl. by rewrite Hs.
  - intros s Hnan. simpl. f_equal. unfold normalize_scalar. simpl.
    destruct (String.eqb_spec (lower (strip s)) "nan") as [|_]; [done|].
    destruct (String.eqb_spec (lower s) "nan") as [E|_].
    + by rewrite (lower_nan_strip s E) in Hnan.
    + by rewrite <- (strip_lower s), strip_idem.
Qed.

Lemma normalize_text_ignores_case_and_padding_witness :
  normalize_text (Scalar (CStr "ACME Corp")) = normalize_text (Scalar (CStr "acme corp")) ∧
  normalize_text (Scalar (CStr "Acme")) = normalize_text (Scalar (CStr "  Acme ")).
Proof.
  split.
  - apply (proj1 normalize_text_ignores_case_and_padding). reflexivity.
  - apply (proj2 normalize_text_ignores_case_and_padding "  Acme "). discriminate.
Defined.

(** The key of a scalar is empty exactly when the value is missing, its
    text reads [nan] in any case, or its text is blank. *)
Theorem normalize_text_empty_iff c :
  normalize_text (Scalar c) = Ok "" ↔
  isna c = true ∨ lower (py_str c) = "nan" ∨ blank (py_str c) = true.
Proof.
  simpl. unfold normalize_scalar.
  assert (is_None c = true → isna c = true) as HN by (by destruct c).
  destruct (isna c) eqn:Hna; simpl; [by split; [left|]|].
  destruct (is_None c) eqn:Hn; [by specialize (HN eq_refl)|]. simpl.
  destruct (String.eqb_spec (lower (py_str c)) "nan") as [E|E].
  - split; [by right; left | done].
  - split.
    + intros [= Hs]. right. right.
      apply strip_empty_blank in Hs. by rewrite blank_lower in Hs.
    + intros [?|[?|Hb]]; [done|done|]. f_equal.
      apply strip_empty_blank. by rewrite blank_lower.
Qed.

End normalize_more.

(** * Further properties of the reference set builder *)

Section loader_more.
Implicit Types (cols : list string) (row : list cell) (st : sets).
Implicit Types (fs : filesystem) (df : dataframe) (k : string).

Lemma sample_fs_has_jane : "jane" ∈ fst (load_database_set sample_fs IMNEO_FILES).
Proof.
  apply (load_database_set_adds_name sample_fs IMNEO_FILES "imneo.csv"
           (FileContent (Some sample_reference) None None) sample_reference
           [CStr " Jane "; CStr "Acme Corp"] (CStr " Jane ") (CStr "")).
  - reflexivity.
  - unfold IMNEO_FILES. by left.
  - unfold sample_fs. simpl. by apply lookup_singleton_eq.
  - reflexivity.
  - by apply (bool_decide_unpack _).
  - unfold sample_reference. simpl. by left.
  - reflexivity.
  - reflexivity.
  - discriminate.
Qed.

Lemma join_name_normal a b : normal_key a → normal_key b → normal_key (join_name a b).
Proof.
  intros [Ha _] [Hb _]. unfold join_name. split; [|apply strip_idem].
  by rewrite <- strip_lower, !lower_app, Ha, Hb.
Qed.

Lemma normalize_text_normal x y : normalize_text x = Ok y → normal_key y.
Proof.
  intros Hx. apply normalize_text_ok in Hx as (c & -> & ->).
  apply normalize_scalar_normal.
Qed.

Lemma add_key_normal k (s : gset string) x :
  normal_key k → (∀ y, y ∈ s → normal_key y) → x ∈ add_key k s → normal_key x.
Proof.
  intros Hk Hs. unfold add_key. destruct (is_empty k); [apply Hs|].
  rewrite elem_of_union, elem_of_singleton. intros [->|Hx]; [done | by apply Hs].
Qed.

Lemma sets_normal_add_name k st :
  normal_key k → sets_normal st → sets_normal (add_key k (fst st), snd st).
Proof.
  intros Hk Hst x [Hx|Hx]; simpl in Hx.
  - eapply add_key_normal; [done| |done]. intros y Hy. apply Hst. by left.
  - apply Hst. by right.
Qed.

Lemma sets_normal_add_company k st :
  normal_key k → sets_normal st → sets_normal (fst st, add_key k (snd st)).
Proof.
  intros Hk Hst x [Hx|Hx]; simpl in Hx.
  - apply Hst. by left.
  - eapply add_key_normal; [done| |done]. intros y Hy. apply Hst. by right.
Qed.

Lemma load_row_normal cols row st :
  sets_normal st → sets_normal (load_row cols row st).1.
Proof.
  intros Hst. rewrite load_row_unfold.
  destruct (get_first cols row) as [first|]; [|done].
  destruct (get_last cols row) as [last|]; [|done].
  destruct (get_company cols row) as [company|]; [|done].
  destruct (normalize_text first) as [nf|] eqn:Hf; [|done].
  destruct (normalize_text last) as [nl|] eqn:Hl; [|done].
  assert (normal_key (join_name nf nl)) as Hname.
  { apply join_name_normal; by eapply normalize_text_normal. }
  destruct (normalize_text company) as [nc|] eqn:Hc; simpl.
  - apply (sets_normal_add_company nc (add_key (join_name nf nl) (fst st), snd st)).
    + by eapply normalize_text_normal.
    + by apply sets_normal_add_name.
  - by apply sets_normal_add_name.
Qed.

Lemma iterrows_normal cols rs : ∀ st,
  sets_normal st → sets_normal (iterrows (load_row cols) rs st).1.
Proof.
  induction rs as [|r rs IH]; intros st Hst; [done|].
  rewrite iterrows_cons. pose proof (load_row_normal cols r st Hst) as Hr.
  destruct (load_row cols r st) as [st' [[]|e]]; simpl in *; auto.
Qed.

Lemma load_file_normal fs filename st :
  sets_normal st → sets_normal (load_file fs filename st).
Proof.
  intros Hst. unfold load_file. repeat case_match; try done.
  by apply iterrows_normal.
Qed.

Lemma load_files_normal fs filenames : ∀ st,
  sets_normal st →
  sets_normal (fold_left (λ st filename, load_file fs filename st) filenames st).
Proof.
  induction filenames as [|f l IH]; simpl; intros st Hst; [done|].
  by apply IH, load_file_normal.
Qed.

Lemma sets_normal_empty : sets_normal (∅, ∅).
Proof. intros k [Hk|Hk]; simpl in Hk; by apply not_elem_of_empty in Hk. Qed.

(** Whatever the files hold, every key of the two sets the builder returns
    is lowercase and trimmed at both ends. *)
Theorem reference_keys_normal_form fs filenames k :
  k ∈ fst (load_database_set fs filenames) ∨
  k ∈ snd (load_database_set fs filenames) →
  lower k = k ∧ strip k = k.
Proof.
  unfold load_database_set. destruct (folder_exists fs); simpl.
  - apply (load_files_normal fs filenames (∅, ∅) sets_normal_empty).
  - apply sets_normal_empty.
Qed.

Lemma reference_keys_normal_form_witness :
  lower "jane" = "jane" ∧ strip "jane" = "jane".
Proof.
  apply (reference_keys_normal_form sample_fs IMNEO_FILES "jane").
  left. apply sample_fs_has_jane.
Defined.

(** ** The sets are a union over the files *)

Ltac by_elements :=
  apply set_eq; intros ?;
  rewrite ?elem_of_union, ?elem_of_singleton, ?elem_of_empty; tauto.

Lemma add_key_union k (s : gset string) : add_key k s = add_key k ∅ ∪ s.
Proof. unfold add_key. destruct (is_empty k); by_elements. Qed.

Lemma sets_union_empty_l st : sets_union (∅, ∅) st = st.
Proof. destruct st as [a b]. unfold sets_union. simpl. f_equal; by_elements. Qed.

Lemma sets_union_assoc a b c :
  sets_union (sets_union a b) c = sets_union a (sets_union b c).
Proof. unfold sets_union. simpl. f_equal; by_elements. Qed.

(** A row adds the same keys, and raises or not, whatever the sets hold. *)
Lemma load_row_frame cols row st :
  load_row cols row st =
    (sets_union (load_row cols row (∅, ∅)).1 st, (load_row cols row (∅, ∅)).2).
Proof.
  rewrite !load_row_unfold.
  destruct (get_first cols row) as [first|]; [|by rewrite sets_union_empty_l].
  destruct (get_last cols row) as [last|]; [|by rewrite sets_union_empty_l].
  destruct (get_company cols row) as [company|]; [|by rewrite sets_union_empty_l].
  destruct (normalize_text first) as [nf|]; [|by rewrite sets_union_empty_l].
  destruct (normalize_text last) as [nl|]; [|by rewrite sets_union_empty_l].
  destruct st as [ns cs].
  destruct (normalize_text company) as [nc|]; unfold sets_union; simpl.
  - by rewrite (add_key_union _ ns), (add_key_union _ cs).
  - rewrite (add_key_union _ ns). do 2 f_equal. by_elements.
Qed.

Lemma iterrows_frame cols rs : ∀ st,
  iterrows (load_row cols) rs st =
    (sets_union (iterrows (load_row cols) rs (∅, ∅)).1 st,
     (iterrows (load_row cols) rs (∅, ∅)).2).
Proof.
  induction rs as [|r rs IH]; intros st.
  - simpl. by rewrite sets_union_empty_l.
  - rewrite !iterrows_cons, (load_row_frame cols r st).
    destruct (load_row cols r (∅, ∅)) as [d [[]|e]]; simpl; [|done].
    rewrite (IH (sets_union d st)), (IH d). simpl.
    by rewrite sets_union_assoc.
Qed.

Lemma load_file_frame fs filename st :
  load_file fs filename st = sets_union (contribution fs filename) st.
Proof.
  unfold contribution, load_file.
  destruct (files fs !! filename) as [fc|]; [|by rewrite sets_union_empty_l].
  destruct (read_table filename fc) as [df|]; [|by rewrite sets_union_empty_l].
  by rewrite iterrows_frame.
Qed.

Lemma load_files_elem fs filenames k : ∀ st,
  (k ∈ fst (fold_left (λ st filename, load_file fs filename st) filenames st) ↔
   k ∈ fst st ∨ ∃ f, f ∈ filenames ∧ k ∈ fst (contribution fs f)) ∧
  (k ∈ snd (fold_left (λ st filename, load_file fs filename st) filenames st) ↔
   k ∈ snd st ∨ ∃ f, f ∈ filenames ∧ k ∈ snd (contribution fs f)).
Proof.
  induction filenames as [|f l IH]; intros st; simpl.
  - split; (split; [by left | intros [?|(f & Hf & _)]; [done|]]);
      by apply elem_of_nil in Hf.
  - destruct (IH (load_file fs f st)) as [IH1 IH2].
    rewrite IH1, IH2, (load_file_frame fs f st). unfold sets_union. simpl.
    rewrite !elem_of_union. split; split.
    + intros [[?|?]|(g & Hg & ?)]; [right; exists f; split; [left|done]|by left|].
      right. exists g. split; [by right|done].
    + intros [?|(g & Hg & ?)]; [by left; right|].
      apply elem_of_cons in Hg as [->|Hg]; [by left; left|].
      right. by exists g.
    + intros [[?|?]|(g & Hg & ?)]; [right; exists f; split; [left|done]|by left|].
      right. exists g. split; [by right|done].
    + intros [?|(g & Hg & ?)]; [by left; right|].
      apply elem_of_cons in Hg as [->|Hg]; [by left; left|].
      right. by exists g.
Qed.

Lemma load_database_set_elem fs filenames k :
  (k ∈ fst (load_database_set fs filenames) ↔
   folder_exists fs = true ∧ ∃ f, f ∈ filenames ∧ k ∈ fst (contribution fs f)) ∧
  (k ∈ snd (load_database_set fs filenames) ↔
   folder_exists fs = true ∧ ∃ f, f ∈ filenames ∧ k ∈ snd (contribution fs f)).
Proof.
  unfold load_database_set. destruct (folder_exists fs); simpl.
  - destruct (load_files_elem fs filenames k (∅, ∅)) as [-> ->]. simpl.
    split; (split; [intros [Hk|?]; [by apply not_elem_of_empty in Hk|done]
                   |intros [_ ?]; by right]).
  - split; (split; [intros Hk; by apply not_elem_of_empty in Hk | by intros [? _]]).
Qed.

(** The result over a list of files is the union of the results over its
    parts: loading [l1 ++ l2] gives, set by set, the union of loading [l1]
    and loading [l2]. *)
Theorem load_database_set_app fs l1 l2 :
  load_database_set fs (l1 ++ l2)
    = sets_union (load_database_set fs l1) (load_database_set fs l2).
Proof.
  unfold sets_union. rewrite (surjective_pairing (load_database_set fs (l1 ++ l2))).
  apply (f_equal2 pair (A1 := gset string) (A2 := gset string)); apply set_eq; intros k.
  - rewrite elem_of_union.
    rewrite !(proj1 (load_database_set_elem fs _ k)). split.
    + intros (Hf & f & Hin & Hk). apply elem_of_app in Hin as [Hin|Hin].
      * left. split; [done|]. by exists f.
      * right. split; [done|]. by exists f.
    + intros [(Hf & f & Hin & Hk)|(Hf & f & Hin & Hk)];
        (split; [done|]); exists f; (split; [|done]); apply elem_of_app;
        [by left | by right].
  - rewrite elem_of_union.
    rewrite !(proj2 (load_database_set_elem fs _ k)). split.
    + intros (Hf & f & Hin & Hk). apply elem_of_app in Hin as [Hin|Hin].
      * left. split; [done|]. by exists f.
      * right. split; [done|]. by exists f.
    + intros [(Hf & f & Hin & Hk)|(Hf & f & Hin & Hk)];
        (split; [done|]); exists f; (split; [|done]); apply elem_of_app;
        [by left | by right].
Qed.

(** Neither the order of the file list nor a file listed twice matters:
    two lists that name the same files give the same two sets. *)
Theorem load_database_set_same_files fs l1 l2 :
  (∀ f, f ∈ l1 ↔ f ∈ l2) →
  load_database_set fs l1 = load_database_set fs l2.
Proof.
  intros Hsame.
  rewrite (surjective_pairing (load_database_set fs l1)).
  rewrite (surjective_pairing (load_database_set fs l2)).
  apply (f_equal2 pair (A1 := gset string) (A2 := gset string)); apply set_eq; intros k.
  - rewrite !(proj1 (load_database_set_elem fs _ k)).
    split; intros (Hf & f & Hin & Hk); (split; [done|]); exists f;
      (split; [by apply Hsame | done]).
  - rewrite !(proj2 (load_database_set_elem fs _ k)).
    split; intros (Hf & f & Hin & Hk); (split; [done|]); exists f;
      (split; [by apply Hsame | done]).
Qed.

Lemma load_database_set_same_files_witness :
  load_database_set sample_fs ["imneo.csv"; "imneo1.xlsx"; "imneo.csv"]
    = load_database_set sample_fs ["imneo1.xlsx"; "imneo.csv"].
Proof.
  apply load_database_set_same_files.
  intros f. rewrite !elem_of_cons, !elem_of_nil. tauto.
Defined.

(** A file that exists but that its reader cannot read is passed over like
    a missing one: the files before and after it are loaded as if it were
    not listed. *)
Theorem unreadable_file_skipped fs before filename after fc :
  files fs !! filename = Some fc → read_table filename fc = None →
  load_database_set fs (before ++ filename :: after)
    = load_database_set fs (before ++ after).
Proof.
  intros Hfile Hread. unfold load_database_set.
  destruct (folder_exists fs); simpl; [|done].
  rewrite !fold_left_app. simpl. unfold load_file at 2.
  by rewrite Hfile, Hread.
Qed.

Lemma unreadable_file_skipped_witness :
  load_database_set
    (FileSystem true {[ "imneo.csv" := FileContent None None (Some sample_reference) ]})
    ([] ++ "imneo.csv" :: ["imneo1.xlsx"])
  = load_database_set
    (FileSystem true {[ "imneo.csv" := FileContent None None (Some sample_reference) ]})
    ([] ++ ["imneo1.xlsx"]).
Proof.
  apply (unreadable_file_skipped _ [] "imneo.csv" ["imneo1.xlsx"]
           (FileContent None None (Some sample_reference))).
  - simpl. by apply lookup_singleton_eq.
  - reflexivity.
Defined.

(** ** Headers that occur more than once *)

Lemma cells_at_length {L : Type} `{EqDecision L} (labels : list L) row (l : L) :
  length (cells_at labels row l) = occurrences l labels.
Proof.
  unfold occurrences. revert row.
  induction labels as [|h t IH]; intros row; simpl; [done|].
  rewrite filter_cons. destruct (decide (h = l)); simpl; by rewrite IH.
Qed.

Lemma occurrences_elem {L : Type} `{EqDecision L} (labels : list L) (l : L) :
  l ∈ labels → (1 ≤ occurrences l labels)%nat.
Proof.
  unfold occurrences. induction labels as [|h t IH]; intros Hl.
  - by apply elem_of_nil in Hl.
  - rewrite filter_cons. destruct (decide (h = l)); simpl; [lia|].
    apply elem_of_cons in Hl as [->|Hl]; [done | by apply IH].
Qed.

(** A cell access under an existing label never raises. *)
Lemma row_get_elem {L : Type} `{EqDecision L} (labels : list L) row (l : L) :
  l ∈ labels → ∃ v, row_get labels row l = Ok v.
Proof.
  intros Hl. apply occurrences_elem in Hl.
  rewrite <- (cells_at_length labels row) in Hl. unfold row_get.
  destruct (cells_at labels row l) as [|c [|c' cs]]; simpl in Hl; [lia|eauto|eauto].
Qed.

(** Under a label that occurs twice or more it is a Series. *)
Lemma row_get_series {L : Type} `{EqDecision L} (labels : list L) row (l : L) :
  (2 ≤ occurrences l labels)%nat → ∃ cs, row_get labels row l = Ok (Series cs).
Proof.
  intros Hl. rewrite <- (cells_at_length labels row) in Hl. unfold row_get.
  destruct (cells_at labels row l) as [|c [|c' cs]]; simpl in Hl; [lia|lia|eauto].
Qed.

Lemma picked_get cols row (fields : list string) a :
  picked fields cols a →
  match find (λ a, str_in a cols) fields with
  | Some a => row_get cols row a
  | None => Ok (Scalar (CStr ""))
  end = row_get cols row a.
Proof. intros (pre & post & -> & Hpre & Ha). by rewrite find_field_first. Qed.

Lemma pick_ok cols row (fields : list string) :
  ∃ v, match find (λ a, str_in a cols) fields with
       | Some a => row_get cols row a
       | None => Ok (Scalar (CStr ""))
       end = Ok v.
Proof.
  destruct (find _ fields) as [b|] eqn:Hb; [|eauto].
  apply find_elem in Hb as [_ Hb]. apply str_in_elem in Hb.
  by apply row_get_elem.
Qed.

(** The [in row] tests guard every cell access of the loader: the three
    fields of a row are always read without an exception. *)
Lemma get_fields_ok cols row :
  ∃ first last company,
    get_first cols row = Ok first ∧ get_last cols row = Ok last ∧
    get_company cols row = Ok company.
Proof.
  destruct (get_fields_spec cols row) as (-> & -> & ->).
  destruct (pick_ok cols row first_name_fields) as [f ->].
  destruct (pick_ok cols row last_name_fields) as [l ->].
  destruct (pick_ok cols row company_fields) as [c ->].
  by exists f, l, c.
Qed.

Lemma normalize_text_raise v e : normalize_text v = Raise e → e = ValueError.
Proof. destruct v; simpl; [done|]. by intros [= <-]. Qed.

Lemma load_row_duplicated_name cols row st a :
  picked first_name_fields cols a ∨ picked last_name_fields cols a →
  (2 ≤ occurrences a cols)%nat →
  load_row cols row st = (st, Raise ValueError).
Proof.
  intros Hpick Hdup. rewrite load_row_unfold.
  destruct (get_fields_ok cols row) as (first & last & company & Hf & Hl & Hc).
  rewrite Hf, Hl, Hc.
  destruct (get_fields_spec cols row) as (Hf' & Hl' & _).
  destruct (row_get_series cols row a Hdup) as [cs Hcs].
  destruct Hpick as [Hp|Hp].
  - rewrite Hf', (picked_get cols row _ a Hp), Hcs in Hf.
    by injection Hf as <-.
  - rewrite Hl', (picked_get cols row _ a Hp), Hcs in Hl.
    injection Hl as <-. destruct (normalize_text first) as [nf|e] eqn:Hn; [done|].
    by rewrite (normalize_text_raise first e Hn).
Qed.

Lemma iterrows_all_raise cols rs st :
  (∀ row st, load_row cols row st = (st, Raise ValueError)) →
  (iterrows (load_row cols) rs st).1 = st.
Proof. intros Hrow. destruct rs as [|r rs]; [done|]. by rewrite iterrows_cons, Hrow. Qed.

(** When the header the first-name chain (or the last-name chain) reads
    occurs twice or more among the lowercased, trimmed headers of a file,
    the file adds nothing to either set, whatever its rows hold. *)
Theorem duplicated_name_header_drops_file fs filename fc df st a :
  files fs !! filename = Some fc → read_table filename fc = Some df →
  picked first_name_fields (map norm_header (columns df)) a ∨
  picked last_name_fields (map norm_header (columns df)) a →
  (2 ≤ occurrences a (map norm_header (columns df)))%nat →
  load_file fs filename st = st.
Proof.
  intros Hfile Hread Hpick Hdup. unfold load_file. rewrite Hfile, Hread.
  apply iterrows_all_raise. intros row st'.
  by apply (load_row_duplicated_name _ row st' a).
Qed.

Lemma duplicated_name_header_drops_file_witness :
  load_file twice_fs "imneo.csv" ({[ "kept" ]}, ∅) = ({[ "kept" ]}, ∅).
Proof.
  apply (duplicated_name_header_drops_file twice_fs "imneo.csv"
           (FileContent (Some twice_first_table) None None) twice_first_table
           _ "first name").
  - unfold twice_fs. simpl. by apply lookup_insert_eq.
  - reflexivity.
  - left. exists [], ["voor naam"; "naam"]. split; [reflexivity|]. split.
    + intros b Hb. by apply elem_of_nil in Hb.
    + apply str_in_elem. reflexivity.
  - vm_compute. lia.
Defined.

(** When the header the company chain reads occurs twice or more while the
    name fields of the first row are scalars, the first row's name key is
    added (when not empty) before the company access raises; no company and
    no later row of the file is added. *)
Theorem duplicated_company_header_keeps_first_name
    fs filename fc df st a row1 rest f l :
  files fs !! filename = Some fc → read_table filename fc = Some df →
  rows df = row1 :: rest →
  picked company_fields (map norm_header (columns df)) a →
  (2 ≤ occurrences a (map norm_header (columns df)))%nat →
  get_first (map norm_header (columns df)) row1 = Ok (Scalar f) →
  get_last (map norm_header (columns df)) row1 = Ok (Scalar l) →
  load_file fs filename st =
    (add_key (join_name (normalize_scalar f) (normalize_scalar l)) (fst st),
     snd st).
Proof.
  intros Hfile Hread Hrows Hpick Hdup Hf Hl. unfold load_file.
  rewrite Hfile, Hread, Hrows, iterrows_cons, load_row_unfold, Hf, Hl.
  destruct (get_fields_spec (map norm_header (columns df)) row1) as (_ & _ & ->).
  rewrite (picked_get _ row1 _ a Hpick).
  by destruct (row_get_series _ row1 a Hdup) as [cs ->].
Qed.

Lemma duplicated_company_header_keeps_first_name_witness :
  load_file twice_fs "imneo1.xlsx" (∅, ∅) = (add_key "jane" ∅, ∅).
Proof.
  apply (duplicated_company_header_keeps_first_name twice_fs "imneo1.xlsx"
           (FileContent None None (Some twice_company_table)) twice_company_table
           (∅, ∅) "company" [CStr "Jane"; CStr "Acme"; CStr "Acme Corp"]
           [[CStr "Bob"; CStr "Other"; CStr "Other Inc"]] (CStr "Jane") (CStr "")).
  - unfold twice_fs. simpl. rewrite lookup_insert_ne by done.
    by apply lookup_singleton_eq.
  - reflexivity.
  - reflexivity.
  - exists ["company name"],
      ["huidig bedrijf"; "currrent company"; "current company"; "company table data"].
    split; [reflexivity|]. split.
    + by apply fields_absent.
    + apply str_in_elem. reflexivity.
  - vm_compute. lia.
  - reflexivity.
  - reflexivity.
Defined.

(** ** Exceptions of the row loop *)

Lemma load_row_raise cols row st e :
  (load_row cols row st).2 = Raise e → e = ValueError.
Proof.
  rewrite load_row_unfold.
  destruct (get_fields_ok cols row) as (first & last & company & -> & -> & ->).
  destruct (normalize_text first) as [nf|e1] eqn:H1;
    [|simpl; intros [= <-]; by eapply normalize_text_raise].
  destruct (normalize_text last) as [nl|e2] eqn:H2;
    [|simpl; intros [= <-]; by eapply normalize_text_raise].
  destruct (normalize_text company) as [nc|e3] eqn:H3;
    [done|simpl; intros [= <-]; by eapply normalize_text_raise].
Qed.

Lemma iterrows_raise cols rs : ∀ st e,
  (iterrows (load_row cols) rs st).2 = Raise e → e = ValueError.
Proof.
  induction rs as [|r rs IH]; intros st e; [done|].
  rewrite iterrows_cons. pose proof (load_row_raise cols r st) as Hr.
  destruct (load_row cols r st) as [st' [[]|e']]; simpl in *; [apply IH | ].
  intros [= <-]. by apply Hr.
Qed.

Lemma iterrows_ok cols rs : ∀ st,
  NoDup cols → (iterrows (load_row cols) rs st).2 = Ok tt.
Proof.
  induction rs as [|r rs IH]; intros st Hnd; [done|].
  rewrite iterrows_cons.
  destruct (load_row_ok cols r st Hnd) as (f & l & c & _ & _ & _ & ->).
  by apply IH.
Qed.

(** The loop over the rows of a reference file can only stop on the
    [ValueError] of a Series access, never on a [KeyError], and it stops
    only when two headers of the file agree once lowercased and trimmed. *)
Theorem loader_rows_raise_only_on_duplicates cols rs st e :
  (iterrows (load_row cols) rs st).2 = Raise e →
  e = ValueError ∧ ¬ NoDup cols.
Proof.
  intros Hraise. split; [by eapply iterrows_raise|].
  intros Hnd. by rewrite (iterrows_ok cols rs st Hnd) in Hraise.
Qed.

Lemma loader_rows_raise_only_on_duplicates_witness :
  ¬ NoDup (map norm_header (columns twice_first_table)).
Proof.
  refine (proj2 (loader_rows_raise_only_on_duplicates
                   (map norm_header (columns twice_first_table))
                   (rows twice_first_table) (∅, ∅) ValueError _)).
  reflexivity.
Defined.

(** ** Both keys of a row *)

Lemma iterrows_adds_company cols rs row c : ∀ st,
  NoDup cols → row ∈ rs →
  get_company cols row = Ok (Scalar c) → normalize_scalar c ≠ "" →
  normalize_scalar c ∈ snd (fst (iterrows (load_row cols) rs st)).
Proof.
  intros st Hnd Hrow Hc Hne. revert st.
  induction rs as [|r rs IH]; intros st; [by apply elem_of_nil in Hrow|].
  rewrite iterrows_cons.
  destruct (load_row_ok cols r st Hnd) as (f' & l' & c' & _ & _ & Hc' & ->).
  apply elem_of_cons in Hrow as [<-|Hrow].
  - rewrite Hc in Hc'. simplify_eq.
    apply (iterrows_mono cols rs _). simpl. by apply add_key_elem.
  - by apply IH.
Qed.

(** Every row of a reference file with distinct headers leaves both its
    keys in the sets: its name key [normalize(first) normalize(last)],
    trimmed, among the names and its normalized company among the
    companies, each when not empty. *)
Theorem row_keys_are_loaded fs filenames filename fc df row f l c :
  folder_exists fs = true → filename ∈ filenames →
  files fs !! filename = Some fc → read_table filename fc = Some df →
  NoDup (map norm_header (columns df)) → row ∈ rows df →
  get_first (map norm_header (columns df)) row = Ok (Scalar f) →
  get_last (map norm_header (columns df)) row = Ok (Scalar l) →
  get_company (map norm_header (columns df)) row = Ok (Scalar c) →
  (join_name (normalize_scalar f) (normalize_scalar l) ≠ "" →
   join_name (normalize_scalar f) (normalize_scalar l)
     ∈ fst (load_database_set fs filenames)) ∧
  (normalize_scalar c ≠ "" →
   normalize_scalar c ∈ snd (load_database_set fs filenames)).
Proof.
  intros Hfolder Hin Hfile Hread Hnd Hrow Hf Hl Hc. split.
  - by eapply load_database_set_adds_name.
  - intros Hne. apply (proj2 (load_database_set_elem fs filenames _)).
    split; [done|]. exists filename. split; [done|].
    unfold contribution, load_file. rewrite Hfile, Hread.
    by apply (iterrows_adds_company _ _ row).
Qed.

Lemma row_keys_are_loaded_witness :
  "acme corp" ∈ snd (load_database_set sample_fs IMNEO_FILES).
Proof.
  refine (proj2 (row_keys_are_loaded sample_fs IMNEO_FILES
            "imneo.csv" (FileContent (Some sample_reference) None None)
            sample_reference [CStr " Jane "; CStr "Acme Corp"]
            (CStr " Jane ") (CStr "") (CStr "Acme Corp")
            eq_refl _ _ eq_refl _ _ eq_refl eq_refl eq_refl) _).
  - unfold IMNEO_FILES. by left.
  - unfold sample_fs. simpl. by apply lookup_singleton_eq.
  - by apply (bool_decide_unpack _).
  - unfold sample_reference. simpl. by left.
  - discriminate.
Defined.

(** ** Start-up *)

(** The [RENDER] variable never changes what start-up builds: the four
    sets depend on the file system only. *)
Theorem startup_ignores_render render1 render2 fs :
  startup render1 fs = startup render2 fs.
Proof.
  destruct (folder_exists fs) eqn:Hf.
  - unfold startup. by rewrite Hf, !orb_true_r.
  - by rewrite !startup_absent.
Qed.

End loader_more.

(** * Single-component names *)

Section lone_component.
Implicit Types (fs : filesystem) (df : dataframe) (row : list cell).







End lone_component.

(** * Further properties of the row classifier *)

Section classifier_more.
Implicit Types (db : refs) (mode : option string) (df : dataframe).
Implicit Types (row : list cell) (un uc : string) (c : cell).

(** ** The company column *)

Lemma company_col_loop_skip (pre rest : list string) (cols : list cell) :
  (∀ b x, b ∈ pre → x ∈ cols → norm_header x ≠ b) →
  company_col_loop (pre ++ rest) cols = company_col_loop rest cols.
Proof.
  induction pre as [|h t IH]; intros Hpre; simpl; [done|].
  unfold next_col. rewrite find_none.
  - apply IH. intros b x Hb. apply Hpre. by right.
  - intros x Hx. apply String.eqb_neq. apply Hpre; [left|done].
Qed.

(** Unlike the name columns, the company column goes by header priority:
    the first header of [company table data], [company name],
    [huidig bedrijf], [company], [name] that some column carries decides,
    and the leftmost column carrying it is the company column; without any
    of them there is no company column. *)
Theorem company_col_by_header_priority df :
  (∀ pre h post cpre c cpost,
     possible_company_headers = pre ++ h :: post →
     (∀ b x, b ∈ pre → x ∈ columns df → norm_header x ≠ b) →
     columns df = cpre ++ c :: cpost →
     (∀ x, x ∈ cpre → norm_header x ≠ h) → norm_header c = h →
     company_col df = Some c) ∧
  ((∀ b x, b ∈ possible_company_headers → x ∈ columns df → norm_header x ≠ b) →
   company_col df = None).
Proof.
  unfold company_col. split.
  - intros pre h post cpre c cpost Hheaders Hpre Hcols Hcpre Hc.
    rewrite Hheaders, (company_col_loop_skip pre _ _ Hpre). simpl.
    unfold next_col. rewrite Hcols, (find_first _ cpre c cpost).
    + assert (truthy c = true) as ->; [|done].
      apply (header_truthy c possible_company_headers); try done.
      apply str_in_elem. rewrite Hc, Hheaders.
      apply elem_of_app. right. left.
    + intros y Hy. apply String.eqb_neq. by apply Hcpre.
    + apply String.eqb_eq. done.
  - intros Hnone.
    rewrite <- (app_nil_r possible_company_headers).
    by rewrite (company_col_loop_skip _ [] _ Hnone).
Qed.

Lemma company_col_by_header_priority_witness :
  company_col (DataFrame [CStr "Name"; CStr "Company"; CStr " COMPANY NAME "] [])
    = Some (CStr " COMPANY NAME ").
Proof.
  apply (proj1 (company_col_by_header_priority
                  (DataFrame [CStr "Name"; CStr "Company"; CStr " COMPANY NAME "] []))
           ["company table data"] "company name" ["huidig bedrijf"; "company"; "name"]
           [CStr "Name"; CStr "Company"] (CStr " COMPANY NAME ") []).
  - reflexivity.
  - intros b x Hb Hx. simpl in Hx.
    apply list_elem_of_singleton in Hb as ->.
    rewrite !elem_of_cons, elem_of_nil in Hx.
    destruct Hx as [->|[->|[->|[]]]]; discriminate.
  - reflexivity.
  - intros x Hx. rewrite !elem_of_cons, elem_of_nil in Hx.
    destruct Hx as [->|[->|[]]]; discriminate.
  - reflexivity.
Defined.

(** ** The outcomes *)

(** The classification in full. A row is [IMNEO Match (Restricted)] exactly
    when it matches IMNEO; it is [Safe] exactly when it matches neither
    group; in between, it is the X-CLIENT outcome its mode selects. So no
    row is flagged without a match, and the colour is always one of
    [FF0000], [FFFF00], [FFFFFF]. *)
Theorem classify_outcomes db mode un uc :
  let imneo := (un ≠ "" ∧ un ∈ imneo_names db) ∨ (uc ≠ "" ∧ uc ∈ imneo_companies db) in
  let xclient := (un ≠ "" ∧ un ∈ xclient_names db) ∨ (uc ≠ "" ∧ uc ∈ xclient_companies db) in
  (classify db mode un uc = ("IMNEO Match (Restricted)", "FF0000") ↔ imneo) ∧
  (classify db mode un uc = ("X-Client Match (Candidate Mode)", "FF0000") ↔
     ¬ imneo ∧ xclient ∧ mode = Some "candidate") ∧
  (classify db mode un uc = ("X-Client Match (Client/Relation)", "FFFF00") ↔
     ¬ imneo ∧ xclient ∧ mode ≠ Some "candidate") ∧
  (classify db mode un uc = ("Safe", "FFFFFF") ↔ ¬ imneo ∧ ¬ xclient).
Proof.
  intros imneo xclient.
  destruct (decide (key_in un (imneo_names db) || key_in uc (imneo_companies db) = true))
    as [Hi|Hi]; pose proof Hi as Hi'; rewrite matches_true in Hi'; fold imneo in Hi'.
  { rewrite (classify_imneo db mode un uc Hi').
    repeat split; try done; try (intros [? _]; done). }
  destruct (decide (key_in un (xclient_names db) || key_in uc (xclient_companies db) = true))
    as [Hx|Hx]; pose proof Hx as Hx'; rewrite matches_true in Hx'; fold xclient in Hx'.
  - rewrite (classify_xclient db mode un uc Hi' Hx').
    destruct (decide (mode = Some "candidate")) as [Hm|Hm].
    + rewrite bool_decide_eq_true_2 by done.
      repeat split; try done; try (intros (_ & _ & ?); done); intros [_ ?]; done.
    + rewrite bool_decide_eq_false_2 by done.
      repeat split; try done; try (intros (_ & _ & ?); done); intros [_ ?]; done.
  - rewrite (classify_safe db mode un uc Hi' Hx').
    repeat split; try done; intros (_ & ? & _); done.
Qed.

(** The mode matters for X-CLIENT-only matches alone: a row that matches
    IMNEO, or that does not match X-CLIENT, is classified alike in every
    mode, and any two modes other than [candidate] classify every row
    alike. *)
Theorem mode_matters_for_xclient_only db un uc :
  (∀ mode1 mode2,
     ((un ≠ "" ∧ un ∈ imneo_names db) ∨ (uc ≠ "" ∧ uc ∈ imneo_companies db)) ∨
     ¬ ((un ≠ "" ∧ un ∈ xclient_names db) ∨ (uc ≠ "" ∧ uc ∈ xclient_companies db)) →
     classify db mode1 un uc = classify db mode2 un uc) ∧
  (∀ mode1 mode2,
     mode1 ≠ Some "candidate" → mode2 ≠ Some "candidate" →
     classify db mode1 un uc = classify db mode2 un uc).
Proof.
  split.
  - intros mode1 mode2 [Hi|Hx].
    + by rewrite !classify_imneo.
    + unfold classify. rewrite <- matches_true in Hx.
      apply not_true_is_false in Hx. by rewrite Hx.
  - intros mode1 mode2 H1 H2. unfold classify.
    by rewrite !bool_decide_eq_false_2.
Qed.

Lemma mode_matters_for_xclient_only_witness :
  classify sample_refs (Some "candidate") "jane doe" ""
    = classify sample_refs None "jane doe" "" ∧
  classify sample_refs (Some "client") "" "acme corp"
    = classify sample_refs (Some "relation") "" "acme corp".
Proof.
  split.
  - apply (proj1 (mode_matters_for_xclient_only sample_refs "jane doe" "")).
    left. left. split; [discriminate | in_sample].
  - apply (proj2 (mode_matters_for_xclient_only sample_refs "" "acme corp"));
      discriminate.
Defined.

(** ** A listed name is flagged *)

Lemma cells_at_map {L L' : Type} `{EqDecision L} `{EqDecision L'}
    (f : L → L') (labels : list L) row (l : L) :
  NoDup (map f labels) → l ∈ labels →
  cells_at (map f labels) row (f l) = cells_at labels row l.
Proof.
  revert row. induction labels as [|h t IH]; intros row Hnd Hl;
    [by apply elem_of_nil in Hl|].
  simpl in *. apply NoDup_cons in Hnd as [Hh Ht].
  destruct (decide (h = l)) as [->|Hne].
  - rewrite decide_True by done.
    rewrite (cells_at_absent (map f t)) by done.
    rewrite (cells_at_absent t); [done|].
    intros Hin. apply Hh. apply list_elem_of_fmap. by exists l.
  - apply elem_of_cons in Hl as [->|Hl]; [done|].
    rewrite decide_False; [by apply IH|].
    intros Heq. apply Hh. rewrite Heq. apply list_elem_of_fmap. by exists l.
Qed.

(** With distinct lowercased headers, reading a row under a raw label and
    under its lowercased, trimmed form gives the same cell. *)
Lemma row_get_map {L L' : Type} `{EqDecision L} `{EqDecision L'}
    (f : L → L') (labels : list L) row (l : L) :
  NoDup (map f labels) → l ∈ labels →
  row_get (map f labels) row (f l) = row_get labels row l.
Proof. intros Hnd Hl. unfold row_get. by rewrite cells_at_map. Qed.

Lemma find_exists {A : Type} (p : A → bool) (l : list A) x :
  x ∈ l → p x = true → ∃ y, find p l = Some y.
Proof.
  induction l as [|h t IH]; intros Hx Hp; [by apply elem_of_nil in Hx|].
  simpl. destruct (p h) eqn:E; [eauto|].
  apply elem_of_cons in Hx as [->|Hx]; [congruence | by apply IH].
Qed.

Lemma sole_field_pick cols row (fields : list string) a :
  sole_field fields cols a →
  match find (λ a, str_in a cols) fields with
  | Some a => row_get cols row a
  | None => Ok (Scalar (CStr ""))
  end = row_get cols row a.
Proof.
  intros (Hf & Hc & Hsole).
  destruct (find_exists (λ a, str_in a cols) fields a Hf) as [a' Ha'].
  { by apply str_in_elem. }
  rewrite Ha'. apply find_elem in Ha' as [Hin Hcol].
  apply str_in_elem in Hcol. by rewrite (Hsole a' Hin Hcol).
Qed.

Lemma sole_field_column df (fields : list string) a :
  sole_field fields (map norm_header (columns df)) a →
  ∃ c, find (λ c, str_in (norm_header c) fields) (columns df) = Some c ∧
       c ∈ columns df ∧ norm_header c = a.
Proof.
  intros (Hf & Hc & Hsole).
  apply list_elem_of_fmap in Hc as (c0 & Hc0 & Hin0).
  destruct (find_exists (λ c, str_in (norm_header c) fields) (columns df) c0 Hin0)
    as [c Hfind].
  { apply str_in_elem. by rewrite <- Hc0. }
  exists c. split; [done|].
  apply find_elem in Hfind as [Hin Hp]. split; [done|].
  apply Hsole; [by apply str_in_elem|].
  apply list_elem_of_fmap. by exists c.
Qed.

(** Loading and looking up agree. Take a reference file of the IMNEO group
    that is read into a table with distinct lowercased, trimmed headers,
    exactly one of them a first-name header and exactly one a last-name
    header. If the same table is uploaded, every row of it whose name key
    is not empty has that key among the IMNEO names and is classified
    [IMNEO Match (Restricted)], in every mode. *)
Theorem listed_name_is_flagged render fs filename fc df row a b mode un :
  folder_exists fs = true → filename ∈ IMNEO_FILES →
  files fs !! filename = Some fc → read_table filename fc = Some df →
  NoDup (map norm_header (columns df)) →
  sole_field first_name_fields (map norm_header (columns df)) a →
  sole_field last_name_fields (map norm_header (columns df)) b →
  row ∈ rows df →
  user_name_of df row = Ok un → un ≠ "" →
  un ∈ imneo_names (startup render fs) ∧
  classify_row (startup render fs) mode df row
    = Ok ("IMNEO Match (Restricted)", "FF0000").
Proof.
  intros Hfolder Hin Hfile Hread Hnd Ha Hb Hrow Hun Hne.
  set (cols := map norm_header (columns df)) in *.
  assert (NoDup (columns df)) as Hnd' by (by eapply NoDup_fmap_1).
  destruct (sole_field_column df _ a Ha) as (fcol & Hfcol & Hfin & Hfa).
  destruct (sole_field_column df _ b Hb) as (lcol & Hlcol & Hlin & Hlb).
  destruct (load_row_ok cols row (∅, ∅) Hnd) as (f & l & c & Hf & Hl & _ & _).
  assert (row_get (columns df) row fcol = Ok (Scalar f)) as Hgf.
  { rewrite <- (row_get_map norm_header) by done. rewrite Hfa, <- Hf.
    destruct (get_fields_spec cols row) as (-> & _ & _).
    by rewrite (sole_field_pick cols row _ a Ha). }
  assert (row_get (columns df) row lcol = Ok (Scalar l)) as Hgl.
  { rewrite <- (row_get_map norm_header) by done. rewrite Hlb, <- Hl.
    destruct (get_fields_spec cols row) as (_ & -> & _).
    by rewrite (sole_field_pick cols row _ b Hb). }
  assert (user_name_of df row
            = Ok (join_name (normalize_scalar f) (normalize_scalar l))) as Hkey.
  { by rewrite (user_name_of_both df row fcol lcol Hfcol Hlcol), Hgf, Hgl. }
  rewrite Hkey in Hun. injection Hun as <-.
  assert (join_name (normalize_scalar f) (normalize_scalar l)
            ∈ imneo_names (startup render fs)) as Hmem.
  { unfold startup. rewrite Hfolder, orb_true_r. simpl.
    by eapply load_database_set_adds_name. }
  split; [done|].
  destruct (user_company_of_total df row Hnd') as [uc Huc].
  rewrite (classify_row_keys _ mode df row _ uc Hkey Huc).
  f_equal. apply classify_imneo. by left.
Qed.

(** A boolean check of [sole_field]. *)
Lemma sole_field_check (fields cols : list string) a :
  str_in a fields = true → str_in a cols = true →
  forallb (λ a', negb (str_in a' cols) || String.eqb a' a) fields = true →
  sole_field fields cols a.
Proof.
  intros Hf Hc Hall. repeat split; [by apply str_in_elem..|].
  intros a' Hin Hcol. rewrite forallb_forall in Hall.
  specialize (Hall a' (proj1 (list_elem_of_In _ _) Hin)).
  apply str_in_elem in Hcol. rewrite Hcol in Hall. by apply String.eqb_eq.
Qed.

Lemma listed_name_is_flagged_witness :
  classify_row (startup None listed_fs) (Some "client") sample_table sample_row_bob
    = Ok ("IMNEO Match (Restricted)", "FF0000").
Proof.
  refine (proj2 (listed_name_is_flagged None listed_fs "imneo.csv"
            (FileContent (Some sample_table) None None) sample_table sample_row_bob
            "first name" "last name" (Some "client") "bob jones"
            eq_refl _ _ eq_refl _ _ _ _ eq_refl _)).
  - unfold IMNEO_FILES. by left.
  - unfold listed_fs. simpl. by apply lookup_singleton_eq.
  - by apply (bool_decide_unpack _).
  - by apply sole_field_check.
  - by apply sole_field_check.
  - unfold sample_table. simpl. rewrite !elem_of_cons. tauto.
  - discriminate.
Defined.

(** ** The shape of the keys *)

Lemma is_empty_app_r x y : y ≠ "" → is_empty (x +:+ y) = false.
Proof. intros Hy. destruct x; simpl; [by apply is_empty_false | done]. Qed.

Lemma rstrip_app_kept x y : rstrip y = y → y ≠ "" → rstrip (x +:+ y) = x +:+ y.
Proof.
  intros Hy Hne. induction x as [|a x IH]; simpl; [done|].
  rewrite IH, (is_empty_app_r x y Hne). by rewrite andb_false_r.
Qed.

Lemma stripped_parts s : strip s = s → no_lead_space s ∧ rstrip s = s.
Proof.
  intros Hs. assert (no_lead_space s) as Hn by (rewrite <- Hs; apply strip_no_lead).
  split; [done|]. unfold strip in Hs. by rewrite (lstrip_id s Hn) in Hs.
Qed.

Lemma join_name_both a b :
  strip a = a → a ≠ "" → strip b = b → b ≠ "" →
  join_name a b = a +:+ " " +:+ b.
Proof.
  intros Ha Hane Hb Hbne.
  destruct (stripped_parts a Ha) as [Hla _].
  destruct (stripped_parts b Hb) as [_ Hrb].
  unfold join_name, strip.
  assert (lstrip (a +:+ " " +:+ b) = a +:+ " " +:+ b) as ->.
  { destruct a as [|x a]; [done|]. simpl in *. by rewrite Hla. }
  apply rstrip_app_kept; [|done].
  change (" " +:+ b) with (String " " b). simpl. rewrite Hrb.
  by apply is_empty_false in Hbne as ->.
Qed.

(** The name key built from two cells: the two normalized texts with one
    space between them when both are non-empty, and the other text alone
    when one of them is empty. *)
Theorem name_key_shape c1 c2 :
  (normalize_scalar c1 ≠ "" → normalize_scalar c2 ≠ "" →
   join_name (normalize_scalar c1) (normalize_scalar c2)
     = normalize_scalar c1 +:+ " " +:+ normalize_scalar c2) ∧
  (normalize_scalar c2 = "" →
   join_name (normalize_scalar c1) (normalize_scalar c2) = normalize_scalar c1) ∧
  (normalize_scalar c1 = "" →
   join_name (normalize_scalar c1) (normalize_scalar c2) = normalize_scalar c2).
Proof.
  split; [|split].
  - intros H1 H2. by apply join_name_both; try apply normalize_scalar_stripped.
  - intros ->. rewrite <- (normalize_scalar_stripped c1) at 1.
    by rewrite join_name_right_empty, normalize_scalar_stripped.
  - intros ->. by rewrite join_name_left_empty, normalize_scalar_stripped.
Qed.

Lemma name_key_shape_witness :
  join_name (normalize_scalar (CStr " Jane ")) (normalize_scalar (CStr "DOE"))
    = "jane doe".
Proof.
  rewrite (proj1 (name_key_shape (CStr " Jane ") (CStr "DOE"))).
  - reflexivity.
  - discriminate.
  - discriminate.
Defined.

(** Both keys derived from an uploaded row are lowercase and trimmed at
    both ends, so a row matches a reference set only by a key that is
    equal, character by character, to a key in normal form. *)
Theorem derived_keys_normal_form df row :
  (∀ un, user_name_of df row = Ok un → lower un = un ∧ strip un = un) ∧
  (∀ uc, user_company_of df row = Ok uc → lower uc = uc ∧ strip uc = uc).
Proof.
  split.
  - intros un. unfold user_name_of.
    destruct (first_name_col df) as [fc|]; [|by intros [= <-]].
    destruct (last_name_col df) as [lc|]; [|by intros [= <-]].
    destruct (truthy fc && truthy lc); [|by intros [= <-]].
    destruct (row_get (columns df) row fc) as [v1|]; [|done]. simpl.
    destruct (normalize_text v1) as [nf|] eqn:H1; [|done]. simpl.
    destruct (row_get (columns df) row lc) as [v2|]; [|done]. simpl.
    destruct (normalize_text v2) as [nl|] eqn:H2; [|done]. simpl.
    intros [= <-]. apply join_name_normal; by eapply normalize_text_normal.
  - intros uc. unfold user_company_of.
    destruct (company_col df) as [cc|]; [|by intros [= <-]].
    destruct (truthy cc); [|by intros [= <-]].
    destruct (row_get (columns df) row cc) as [v|]; [|done]. simpl.
    apply normalize_text_normal.
Qed.

Lemma derived_keys_normal_form_witness :
  lower "jane doe" = "jane doe" ∧ strip "jane doe" = "jane doe".
Proof.
  apply (proj1 (derived_keys_normal_form sample_table sample_row_jane)).
  reflexivity.
Defined.

End classifier_more.

(** * The fills of the written sheet *)

Section workbook.
Implicit Types (ws : worksheet) (colors : list string) (df : dataframe).

Lemma fill_cols_lookup (l : list nat) r color ws r' c' :
  fold_left (λ ws col, <[ (r, col) := color ]> ws) l ws !! (r', c') =
    if bool_decide (r' = r ∧ c' ∈ l) then Some color else ws !! (r', c').
Proof.
  revert ws. induction l as [|col l IH]; intros ws; simpl.
  - rewrite bool_decide_eq_false_2; [done|]. intros [_ H]. by apply elem_of_nil in H.
  - rewrite IH. destruct (decide (r' = r ∧ c' ∈ l)) as [Hin|Hnin].
    + rewrite !bool_decide_eq_true_2; [done| |done].
      destruct Hin. split; [done | by right].
    + rewrite (bool_decide_eq_false_2 _ Hnin).
      destruct (decide ((r, col) = (r', c'))) as [[= <- <-]|Hne].
      * rewrite lookup_insert_eq, bool_decide_eq_true_2; [done|].
        split; [done | left].
      * rewrite lookup_insert_ne by done.
        rewrite bool_decide_eq_false_2; [done|].
        intros [-> Hc]. apply elem_of_cons in Hc as [->|Hc]; [done|].
        apply Hnin. by split.
Qed.

Lemma fill_row_lookup r ncols color ws r' c' :
  fill_row r ncols color ws !! (r', c') =
    if bool_decide (r' = r ∧ 1 ≤ c' ≤ ncols) then Some color else ws !! (r', c').
Proof.
  unfold fill_row. rewrite fill_cols_lookup.
  apply (f_equal (λ b : bool, if b then Some color else ws !! (r', c'))).
  apply bool_decide_ext. rewrite elem_of_seq. lia.
Qed.

(** Painting from index [i] touches the rows from [i + 2] on, one row per
    colour that is not [FFFFFF]. *)
Lemma paint_from_lookup colors ncols : ∀ i ws r c color,
  (∀ r' c', i + 2 ≤ r' → ws !! (r', c') = None) →
  paint_from i colors ncols ws !! (r, c) = Some color ↔
  ws !! (r, c) = Some color ∨
  ∃ j, r = i + j + 2 ∧ colors !! j = Some color ∧ color ≠ "FFFFFF" ∧
       1 ≤ c ≤ ncols.
Proof.
  induction colors as [|col rest IH]; intros i ws r c color Hws; simpl.
  - split; [by left | intros [?|(j & _ & Hj & _)]; [done|]].
    by rewrite lookup_nil in Hj.
  - set (ws' := if String.eqb col "FFFFFF" then ws
                else fill_row (i + 2) ncols col ws).
    assert (∀ r' c' x, ws' !! (r', c') = Some x ↔
              ws !! (r', c') = Some x ∨
              (r' = i + 2 ∧ col = x ∧ x ≠ "FFFFFF" ∧ 1 ≤ c' ≤ ncols))
      as Hws'.
    { intros r' c' x. unfold ws'.
      destruct (String.eqb_spec col "FFFFFF") as [->|Hcol].
      - split; [by left | intros [?|(_ & <- & ? & _)]; done].
      - rewrite fill_row_lookup. case_bool_decide as Hd.
        + split.
          * intros [= <-]. right. destruct Hd as [-> ?].
            repeat split; try done; lia.
          * intros [Hold|(_ & -> & _)]; [|done].
            destruct Hd as [-> _]. rewrite Hws in Hold by lia. done.
        + split; [by left | intros [?|(-> & _ & _ & ?)]; [done|]].
          exfalso. apply Hd. by split. }
    rewrite (IH (S i) ws').
    + rewrite Hws'. split.
      * intros [[?|(-> & <- & ? & ?)]|(j & -> & Hj & ? & ?)]; [by left| |].
        -- right. exists 0. repeat split; try done; lia.
        -- right. exists (S j). repeat split; try done; lia.
      * intros [?|(j & -> & Hj & ? & ?)]; [by left; left|].
        destruct j as [|j]; simpl in Hj.
        -- injection Hj as ->. left. right. repeat split; try done; lia.
        -- right. exists j. repeat split; try done; lia.
    + intros r' c' Hr'.
      destruct (ws' !! (r', c')) as [x|] eqn:Hx; [|done].
      apply Hws' in Hx as [Hold|(-> & _)]; [|lia].
      rewrite Hws in Hold by lia. done.
Qed.

Lemma sheet_fills_some df colors r c color :
  sheet_fills df colors !! (r, c) = Some color ↔
  ∃ i, r = i + 2 ∧ colors !! i = Some color ∧ color ≠ "FFFFFF" ∧
       1 ≤ c ≤ length (out_columns df).
Proof.
  unfold sheet_fills. rewrite paint_from_lookup by (intros; apply lookup_empty).
  rewrite lookup_empty. split.
  - intros [?|(j & -> & ?)]; [done|]. by exists j.
  - intros (i & -> & ?). right. by exists i.
Qed.

(** The cell at (row, column) of the written sheet is filled with a colour
    exactly when the row is [i + 2] for an index [i] of [colors] that
    holds this colour, the colour is not [FFFFFF], and the column is one of
    the sheet's columns, the [Check Result] column included. The header
    row is never filled. *)
Theorem sheet_fills_lookup df colors r c color :
  (sheet_fills df colors !! (r, c) = Some color ↔
   ∃ i, r = i + 2 ∧ colors !! i = Some color ∧ color ≠ "FFFFFF" ∧
        1 ≤ c ≤ length (out_columns df)) ∧
  (r < 2 → sheet_fills df colors !! (r, c) = None).
Proof.
  split; [apply sheet_fills_some|]. intros Hr.
  destruct (sheet_fills df colors !! (r, c)) as [x|] eqn:Hx; [|done].
  apply sheet_fills_some in Hx as (i & -> & _). lia.
Qed.

Lemma sheet_fills_lookup_witness :
  sheet_fills sample_table ["FF0000"; "FFFFFF"] !! (1, 1) = None.
Proof.
  apply (proj2 (sheet_fills_lookup sample_table ["FF0000"; "FFFFFF"] 1 1 "FF0000")).
  lia.
Defined.

Lemma classify_pairs db mode un uc :
  classify db mode un uc = ("IMNEO Match (Restricted)", "FF0000") ∨
  classify db mode un uc = ("X-Client Match (Candidate Mode)", "FF0000") ∨
  classify db mode un uc = ("X-Client Match (Client/Relation)", "FFFF00") ∨
  classify db mode un uc = ("Safe", "FFFFFF").
Proof.
  unfold classify.
  destruct (key_in un (imneo_names db) || key_in uc (imneo_companies db)); [by left|].
  destruct (key_in un (xclient_names db) || key_in uc (xclient_companies db));
    [|by right; right; right].
  destruct (bool_decide (mode = Some "candidate"));
    [by right; left | by right; right; left].
Qed.

Lemma classify_row_safe_white db mode df row status color :
  classify_row db mode df row = Ok (status, color) →
  status = "Safe" ↔ color = "FFFFFF".
Proof.
  unfold classify_row.
  destruct (user_name_of df row) as [un|]; [|done].
  destruct (user_company_of df row) as [uc|]; [|done]. simpl.
  intros [= Hc].
  destruct (classify_pairs db mode un uc) as [H|[H|[H|H]]];
    rewrite H in Hc; injection Hc as <- <-; by split.
Qed.

Lemma classify_table_color db mode df results colors i row status color :
  classify_table db mode df = Ok (results, colors) →
  rows df !! i = Some row →
  classify_row db mode df row = Ok (status, color) →
  colors !! i = Some color.
Proof.
  intros Ht Hi Hrow.
  destruct (classify_loop_spec _ _ _ _ _ _ _ _ Ht) as (scs & Hall & _ & ->).
  destruct (Forall2_lookup_l _ _ _ _ _ Hall Hi) as (sc & Hsc & Hrow').
  rewrite Hrow in Hrow'. injection Hrow' as <-.
  simpl. by rewrite list_lookup_fmap, Hsc.
Qed.

(** In the written sheet the row of the i-th uploaded row, sheet row
    [i + 2], is left without fill in every column when the row is [Safe],
    and is filled in every column, the [Check Result] column included,
    with the colour of its classification otherwise. *)
Theorem sheet_row_follows_classification
    db mode df results colors i row status color c :
  classify_table db mode df = Ok (results, colors) →
  rows df !! i = Some row →
  classify_row db mode df row = Ok (status, color) →
  1 ≤ c ≤ length (out_columns df) →
  (status = "Safe" → sheet_fills df colors !! (i + 2, c) = None) ∧
  (status ≠ "Safe" → sheet_fills df colors !! (i + 2, c) = Some color).
Proof.
  intros Ht Hi Hrow Hc.
  pose proof (classify_table_color _ _ _ _ _ _ _ _ _ Ht Hi Hrow) as Hcolor.
  pose proof (classify_row_safe_white _ _ _ _ _ _ Hrow) as Hsafe.
  split; intros Hs.
  - destruct (sheet_fills df colors !! (i + 2, c)) as [x|] eqn:Hx; [|done].
    apply sheet_fills_some in Hx as (j & Hj & Hcj & Hne & _).
    assert (j = i) as -> by lia. rewrite Hcolor in Hcj. injection Hcj as <-.
    exfalso. apply Hne. by apply Hsafe.
  - apply sheet_fills_some. exists i. repeat split; try done; try lia.
    intros Hw. by apply Hs, Hsafe.
Qed.

Lemma sheet_row_follows_classification_witness :
  sheet_fills sample_table ["FF0000"; "FFFF00"; "FFFFFF"] !! (0 + 2, 4)
    = Some "FF0000".
Proof.
  refine (proj2 (sheet_row_follows_classification sample_refs (Some "client")
            sample_table
            ["IMNEO Match (Restricted)"; "X-Client Match (Client/Relation)"; "Safe"]
            ["FF0000"; "FFFF00"; "FFFFFF"] 0 sample_row_jane
            "IMNEO Match (Restricted)" "FF0000" 4 eq_refl eq_refl eq_refl _) _).
  - vm_compute. lia.
  - discriminate.
Defined.

End workbook.
